(** * Galaxy scene (src/src/scenes/examples/CubeScene.ts, class GalaxyScene)

    Shallow embedding of the galaxy generator ([createGalaxy]), of the
    particle vertex shader, of the frame loop ([animate]), of the GUI
    callbacks ([setupGUI]) and of the start-up path ([BaseScene]
    constructor, [init], and the DOMContentLoaded handler).

    JavaScript numbers and GLSL floats are idealised as real numbers
    (exact arithmetic); integer-valued numbers used as counters and
    indices ([i], [armCount], [particleCount]) are [nat]. [Math.random]
    is an input: the k-th value it returns during one [createGalaxy]
    call is [rnd k]. *)

From Stdlib Require Import Reals Lra List Bool String Arith Lia.
From Stdlib Require Import Strings.Byte NArith ZArith.
Import ListNotations.
Open Scope R_scope.

(** ** Data model *)

(** [THREE.Color]: three channels. *)
Record Color := mkColor { r : R; g : R; b : R }.

(** [THREE.Color.lerpColors] (three.js, src/math/Color.js):
    [this.r = color1.r + (color2.r - color1.r) * alpha], same for g and b. *)
Definition lerpColors (color1 color2 : Color) (alpha : R) : Color :=
  mkColor (r color1 + (r color2 - r color1) * alpha)
          (g color1 + (g color2 - g color1) * alpha)
          (b color1 + (b color2 - b color1) * alpha).

(** [params.galaxy] *)
Record GalaxyParams := mkGalaxyParams {
  armCount : nat;
  armWidth : R;
  spiralFactor : R;
  particleCount : nat;
  size : R;
  randomness : R;
  colorShift : R;
  coreSize : R;
  coreIntensity : R;
  dustDensity : R
}.

(** [params.colors] *)
Record ColorParams := mkColorParams { c_core : Color; c_arms : Color; c_dust : Color }.

(** [params.animation] *)
Record AnimationParams := mkAnimationParams {
  rotationSpeed : R;
  pulseIntensity : R;
  audioReactivity : R
}.

Record Params := mkParams {
  galaxy : GalaxyParams;
  colors : ColorParams;
  animation : AnimationParams
}.

(** A GLSL [vec3]. *)
Record Vec3 := mkVec3 { vx : R; vy : R; vz : R }.

(** ** [createGalaxy]: the generation loop *)

Section Generate.
Variable gp : GalaxyParams.
Variable cp : ColorParams.
(** [rnd k]: the k-th value returned by [Math.random] during the call. *)
Variable rnd : nat -> R.

(** [armAngle = (i % armCount) * (2 * Math.PI / armCount)] *)
Definition armAngle (i : nat) : R :=
  INR (i mod armCount gp) * (2 * PI / INR (armCount gp)).

(** Iteration [i] calls [Math.random] four times, in this order:
    radius, armOffset, randomOffset, thickness. *)
Definition radius (i : nat) : R := rnd (4 * i) * size gp.

Definition armOffset (i : nat) : R :=
  (rnd (4 * i + 1) - 0.5) * armWidth gp * radius i.

Definition spiralAngle (i : nat) : R :=
  (radius i / size gp) * spiralFactor gp * PI * 2.

Definition totalAngle (i : nat) : R := armAngle i + spiralAngle i.

Definition randomOffset (i : nat) : R :=
  (rnd (4 * i + 2) - 0.5) * randomness gp * radius i.

(** [positions[i3]], [positions[i3 + 1]], [positions[i3 + 2]] *)
Definition point_position (i : nat) : Vec3 :=
  mkVec3 (cos (totalAngle i) * (radius i + armOffset i) + randomOffset i)
         ((rnd (4 * i + 3) - 0.5) * radius i * 0.1)
         (sin (totalAngle i) * (radius i + armOffset i) + randomOffset i).

Definition distanceFromCenter (i : nat) : R := radius i / size gp.

(** [baseColor], copied to [colors[i3 .. i3 + 2]] *)
Definition baseColor (i : nat) : Color :=
  lerpColors (c_core cp) (c_arms cp) (distanceFromCenter i * colorShift gp).

(** [sizes[i] = Math.max(2, (1 - distanceFromCenter) * 4)] *)
Definition point_size (i : nat) : R :=
  Rmax 2 ((1 - distanceFromCenter i) * 4).

(** The three typed arrays, filled for [i] in [0, particleCount): each
    array is written at [i3 .. i3 + 2] (resp. [i]) in increasing [i], so
    its contents are the per-point values concatenated in index order. *)
Definition indices : list nat := seq 0 (particleCount gp).

Definition positions : list R :=
  flat_map (fun i => let p := point_position i in [vx p; vy p; vz p]) indices.

Definition colors_arr : list R :=
  flat_map (fun i => let c := baseColor i in [r c; g c; b c]) indices.

Definition sizes : list R := map point_size indices.
End Generate.

(** The geometry of [THREE.Points]: the three buffer attributes. *)
Record Geometry := mkGeometry {
  geo_position : list R;
  geo_color : list R;
  geo_size : list R
}.

Definition createGeometry (p : Params) (rnd : nat -> R) : Geometry :=
  mkGeometry (positions (galaxy p) rnd)
             (colors_arr (galaxy p) (colors p) rnd)
             (sizes (galaxy p) rnd).

(** ** The particle vertex shader *)

Definition vadd (p q : Vec3) : Vec3 := mkVec3 (vx p + vx q) (vy p + vy q) (vz p + vz q).
Definition vscale (k : R) (p : Vec3) : Vec3 := mkVec3 (k * vx p) (k * vy p) (k * vz p).
(** GLSL [length] and [normalize]. *)
Definition vlength (p : Vec3) : R := sqrt (vx p * vx p + vy p * vy p + vz p * vz p).
Definition normalize (p : Vec3) : Vec3 := vscale (/ vlength p) p.

(** The [uniforms] object of the particles' [ShaderMaterial]. *)
Record ParticleUniforms := mkParticleUniforms {
  u_time : R;
  u_audioIntensity : R;
  u_rotationSpeed : R;
  u_pulseIntensity : R;
  u_dustDensity : R
}.

(** Rotation step of [main]: [angle = time * rotationSpeed], then the 2D
    rotation of [(pos.x, pos.z)]. *)
Definition shader_angle (u : ParticleUniforms) : R := u_time u * u_rotationSpeed u.

Definition rotateY (angle : R) (pos : Vec3) : Vec3 :=
  mkVec3 (vx pos * cos angle - vz pos * sin angle)
         (vy pos)
         (vx pos * sin angle + vz pos * cos angle).

(** [pulse = sin(time * 2.0) * pulseIntensity] *)
Definition shader_pulse (u : ParticleUniforms) : R := sin (u_time u * 2) * u_pulseIntensity u.

(** [displacement = sin(time + length(position) * 0.02) * audioIntensity * 10.0] *)
Definition shader_displacement (u : ParticleUniforms) (position : Vec3) : R :=
  sin (u_time u + vlength position * 0.02) * u_audioIntensity u * 10.

(** [main] of the vertex shader, up to the model-view/projection stage:
    the displaced position [pos] and the size before the perspective factor
    [1500.0 / length(mvPosition.xyz)] applied by the renderer. *)
Definition vertex (u : ParticleUniforms) (position : Vec3) (sz : R) : Vec3 * R :=
  let pos := rotateY (shader_angle u) position in
  let pos := vscale (1 + shader_pulse u * 0.1) pos in
  let pos := vadd pos (vscale (shader_displacement u position) (normalize position)) in
  (pos, sz * (1 + u_audioIntensity u * 0.5)).

(** The attributes as the shader reads them: [position] in triples and
    [size] one per vertex. *)
Fixpoint vertices (pos sz : list R) : list (Vec3 * R) :=
  match pos, sz with
  | x :: y :: z :: pos', s :: sz' => (mkVec3 x y z, s) :: vertices pos' sz'
  | _, _ => []
  end.

Definition render_buffers (geo : Geometry) (u : ParticleUniforms) : list (Vec3 * R) :=
  map (fun '(p, s) => vertex u p s) (vertices (geo_position geo) (geo_size geo)).

(** ** Scene state *)

(** [this.particles]: geometry and material uniforms. *)
Record Particles := mkParticles { pt_geometry : Geometry; pt_uniforms : ParticleUniforms }.

(** [this.core]: uniforms of the core's [ShaderMaterial]. *)
Record CoreUniforms := mkCoreUniforms { core_time : R; core_intensity : R }.

Record Scene := mkScene {
  params : Params;
  particles : option Particles;
  core : option CoreUniforms;
  (** [this.analyser], by its [frequencyBinCount] *)
  analyser : option nat;
  dataArray : list byte;
  isAudioConnected : bool;
  time : R
}.

Definition set_particles (s : Scene) (p : option Particles) : Scene :=
  mkScene (params s) p (core s) (analyser s) (dataArray s) (isAudioConnected s) (time s).
Definition set_core (s : Scene) (c : option CoreUniforms) : Scene :=
  mkScene (params s) (particles s) c (analyser s) (dataArray s) (isAudioConnected s) (time s).
Definition set_time (s : Scene) (t : R) : Scene :=
  mkScene (params s) (particles s) (core s) (analyser s) (dataArray s) (isAudioConnected s) t.
Definition set_dataArray (s : Scene) (d : list byte) : Scene :=
  mkScene (params s) (particles s) (core s) (analyser s) d (isAudioConnected s) (time s).
Definition set_params (s : Scene) (p : Params) : Scene :=
  mkScene p (particles s) (core s) (analyser s) (dataArray s) (isAudioConnected s) (time s).

Definition set_u_time (u : ParticleUniforms) (t : R) : ParticleUniforms :=
  mkParticleUniforms t (u_audioIntensity u) (u_rotationSpeed u) (u_pulseIntensity u) (u_dustDensity u).
Definition set_u_audioIntensity (u : ParticleUniforms) (a : R) : ParticleUniforms :=
  mkParticleUniforms (u_time u) a (u_rotationSpeed u) (u_pulseIntensity u) (u_dustDensity u).
Definition set_u_rotationSpeed (u : ParticleUniforms) (x : R) : ParticleUniforms :=
  mkParticleUniforms (u_time u) (u_audioIntensity u) x (u_pulseIntensity u) (u_dustDensity u).
Definition set_u_pulseIntensity (u : ParticleUniforms) (x : R) : ParticleUniforms :=
  mkParticleUniforms (u_time u) (u_audioIntensity u) (u_rotationSpeed u) x (u_dustDensity u).
Definition set_u_dustDensity (u : ParticleUniforms) (x : R) : ParticleUniforms :=
  mkParticleUniforms (u_time u) (u_audioIntensity u) (u_rotationSpeed u) (u_pulseIntensity u) x.

(** [createGalaxy]: new geometry and a new material whose uniforms start
    at [time = 0] and [audioIntensity = 0]; the old points are replaced. *)
Definition createGalaxy (rnd : nat -> R) (s : Scene) : Scene :=
  let p := params s in
  set_particles s
    (Some (mkParticles (createGeometry p rnd)
             (mkParticleUniforms 0 0 (rotationSpeed (animation p))
                (pulseIntensity (animation p)) (dustDensity (galaxy p))))).

(** [createGalaxyCore] *)
Definition createGalaxyCore (s : Scene) : Scene :=
  set_core s (Some (mkCoreUniforms 0 (coreIntensity (galaxy (params s))))).

(** ** The audio sampler of [animate] *)

(** [analyser.getByteFrequencyData(dataArray)]: the current bins are copied
    into the array, the excess of either side being dropped or ignored. *)
Fixpoint fill (dst src : list byte) : list byte :=
  match dst, src with
  | _ :: dst', x :: src' => x :: fill dst' src'
  | _, _ => dst
  end.

Definition byte_value (x : byte) : R := IZR (Z.of_N (Byte.to_N x)).

(** [Array.from(dataArray).reduce((a, b) => a + b, 0) / (dataArray.length * 255)] *)
Definition sample (data : list byte) : R :=
  fold_left (fun a x => a + byte_value x) data 0 / (INR (List.length data) * 255).

(** ** [animate]: one frame *)

(** [bins]: the analyser's current frequency data, read only when the
    guard [this.isAudioConnected && this.analyser] holds. *)
Definition update_particles (bins : list byte) (s : Scene) : Scene :=
  match particles s with
  | Some pt =>
      (* this.particles.material.uniforms.time.value = this.time * rotationSpeed *)
      let u := set_u_time (pt_uniforms pt) (time s * rotationSpeed (animation (params s))) in
      match isAudioConnected s, analyser s with
      | true, Some _ =>
          let data := fill (dataArray s) bins in
          let u' := set_u_audioIntensity u (sample data * audioReactivity (animation (params s))) in
          set_particles (set_dataArray s data) (Some (mkParticles (pt_geometry pt) u'))
      | _, _ => set_particles s (Some (mkParticles (pt_geometry pt) u))
      end
  | None => s
  end.

Definition update_core (s : Scene) : Scene :=
  match core s with
  | Some _ =>
      set_core s (Some (mkCoreUniforms (time s)
        (coreIntensity (galaxy (params s)) *
           (1 + sin (time s * 2) * pulseIntensity (animation (params s))))))
  | None => s
  end.

(** [this.time += 0.016], then the particle and core uniforms; the
    controls update and the composer render read the state only. *)
Definition frame (bins : list byte) (s : Scene) : Scene :=
  update_core (update_particles bins (set_time s (time s + 0.016))).

(** ** GUI callbacks ([setupGUI]) *)

Definition with_galaxy (s : Scene) (f : GalaxyParams -> GalaxyParams) : Scene :=
  set_params s (mkParams (f (galaxy (params s))) (colors (params s)) (animation (params s))).
Definition with_animation (s : Scene) (f : AnimationParams -> AnimationParams) : Scene :=
  set_params s (mkParams (galaxy (params s)) (colors (params s)) (f (animation (params s)))).

Definition upd_armCount (n : nat) (gp : GalaxyParams) : GalaxyParams :=
  mkGalaxyParams n (armWidth gp) (spiralFactor gp) (particleCount gp) (size gp)
    (randomness gp) (colorShift gp) (coreSize gp) (coreIntensity gp) (dustDensity gp).
Definition upd_armWidth (x : R) (gp : GalaxyParams) : GalaxyParams :=
  mkGalaxyParams (armCount gp) x (spiralFactor gp) (particleCount gp) (size gp)
    (randomness gp) (colorShift gp) (coreSize gp) (coreIntensity gp) (dustDensity gp).
Definition upd_spiralFactor (x : R) (gp : GalaxyParams) : GalaxyParams :=
  mkGalaxyParams (armCount gp) (armWidth gp) x (particleCount gp) (size gp)
    (randomness gp) (colorShift gp) (coreSize gp) (coreIntensity gp) (dustDensity gp).
Definition upd_randomness (x : R) (gp : GalaxyParams) : GalaxyParams :=
  mkGalaxyParams (armCount gp) (armWidth gp) (spiralFactor gp) (particleCount gp) (size gp)
    x (colorShift gp) (coreSize gp) (coreIntensity gp) (dustDensity gp).
Definition upd_dustDensity (x : R) (gp : GalaxyParams) : GalaxyParams :=
  mkGalaxyParams (armCount gp) (armWidth gp) (spiralFactor gp) (particleCount gp) (size gp)
    (randomness gp) (colorShift gp) (coreSize gp) (coreIntensity gp) x.
Definition upd_rotationSpeed (x : R) (ap : AnimationParams) : AnimationParams :=
  mkAnimationParams x (pulseIntensity ap) (audioReactivity ap).
Definition upd_pulseIntensity (x : R) (ap : AnimationParams) : AnimationParams :=
  mkAnimationParams (rotationSpeed ap) x (audioReactivity ap).

(** [if (this.particles?.material instanceof THREE.ShaderMaterial) ...] *)
Definition with_uniforms (s : Scene) (f : ParticleUniforms -> ParticleUniforms) : Scene :=
  match particles s with
  | Some pt => set_particles s (Some (mkParticles (pt_geometry pt) (f (pt_uniforms pt))))
  | None => s
  end.

(** Events of a session: a display frame (with the analyser's current
    bins), or a GUI controller change (the controller writes the new value
    into [params] and then runs its [onChange]). Structural changes carry
    the [Math.random] values of the [createGalaxy] they trigger. *)
Inductive event :=
| Frame (bins : list byte)
| SetArmCount (n : nat) (rnd : nat -> R)
| SetArmWidth (x : R) (rnd : nat -> R)
| SetSpiralFactor (x : R) (rnd : nat -> R)
| SetRandomness (x : R) (rnd : nat -> R)
| SetDustDensity (x : R)
| SetRotationSpeed (x : R)
| SetPulseIntensity (x : R).

Definition step (e : event) (s : Scene) : Scene :=
  match e with
  | Frame bins => frame bins s
  | SetArmCount n rnd => createGalaxy rnd (with_galaxy s (upd_armCount n))
  | SetArmWidth x rnd => createGalaxy rnd (with_galaxy s (upd_armWidth x))
  | SetSpiralFactor x rnd => createGalaxy rnd (with_galaxy s (upd_spiralFactor x))
  | SetRandomness x rnd => createGalaxy rnd (with_galaxy s (upd_randomness x))
  | SetDustDensity x =>
      let s := with_galaxy s (upd_dustDensity x) in
      with_uniforms s (fun u => set_u_dustDensity u (dustDensity (galaxy (params s))))
  | SetRotationSpeed x =>
      let s := with_animation s (upd_rotationSpeed x) in
      with_uniforms s (fun u => set_u_rotationSpeed u (rotationSpeed (animation (params s))))
  | SetPulseIntensity x =>
      let s := with_animation s (upd_pulseIntensity x) in
      with_uniforms s (fun u => set_u_pulseIntensity u (pulseIntensity (animation (params s))))
  end.

Definition run (tr : list event) (s : Scene) : Scene :=
  fold_left (fun s e => step e s) tr s.

(** What the renderer draws from a state. *)
Definition render (s : Scene) : option (list (Vec3 * R)) :=
  option_map (fun pt => render_buffers (pt_geometry pt) (pt_uniforms pt)) (particles s).

Definition audio_uniform (s : Scene) : R :=
  match particles s with
  | Some pt => u_audioIntensity (pt_uniforms pt)
  | None => 0
  end.

(** ** Start-up *)

(** The initial value of [params]; the three colours are the
    [THREE.Color]s built from the hex literals [0xffaa55], [0x0066ff] and
    [0xff5500], given as [cp0]. Counts above a few thousand are written
    as binary numbers converted to [nat]. *)
Definition default_galaxy : GalaxyParams :=
  mkGalaxyParams 5 0.3 1.5 (N.to_nat 100000) 1000 0.2 0.5 100 2.0 0.5.
Definition default_animation : AnimationParams := mkAnimationParams 0.1 0.3 1.0.

(** The fields of [GalaxyScene] after its constructor: nothing created
    yet, [isAudioConnected = false], [time = 0]. *)
Definition initial_scene (cp0 : ColorParams) : Scene :=
  mkScene (mkParams default_galaxy cp0 default_animation) None None None [] false 0.

(** The page: the ids of the elements of [document], and whether
    [new AudioContext()] succeeds. *)
Record Env := mkEnv { doc_ids : list string; audio_supported : bool }.

(** [document.getElementById(id)]: [null] is [None]. *)
Definition getElementById (env : Env) (id : string) : option string :=
  if existsb (String.eqb id) (doc_ids env) then Some id else None.

(** A JavaScript computation that returns or throws. *)
Inductive js (A : Type) := Ok (a : A) | Throw (e : string).
Arguments Ok {A} a.
Arguments Throw {A} e.

Definition js_bind {A B} (m : js A) (k : A -> js B) : js B :=
  match m with Ok a => k a | Throw e => Throw e end.
Notation "x <- m ;; k" := (js_bind m (fun x => k)) (at level 61, m at next level, right associativity).

(** [document.getElementById('app')?.appendChild(this.renderer.domElement)]:
    on [null] the optional chain stops and nothing is called. The result
    says whether the canvas was attached. *)
Definition appendCanvas (env : Env) : js bool :=
  match getElementById env "app" with
  | Some _ => Ok true
  | None => Ok false
  end.

(** [new GalaxyScene()]: the [BaseScene] constructor, then the camera and
    the [OrbitControls]. *)
Definition construct (env : Env) (cp0 : ColorParams) : js (bool * Scene) :=
  attached <- appendCanvas env ;;
  Ok (attached, initial_scene cp0).

(** The [try] block of [init]: [new AudioContext()] throws when audio is
    unsupported; the [catch] only warns. On success the analyser has
    [fftSize = 256], hence [frequencyBinCount = 128], and [dataArray] is a
    zero-filled [Uint8Array] of that length; [isAudioConnected] is not
    written. *)
Definition setupAudio (env : Env) (s : Scene) : Scene :=
  if audio_supported env then
    mkScene (params s) (particles s) (core s) (Some 128%nat) (repeat Byte.x00 128)
      (isAudioConnected s) (time s)
  else s.

(** [init()] *)
Definition init (env : Env) (rnd : nat -> R) (s : Scene) : Scene :=
  setupAudio env (createGalaxyCore (createGalaxy rnd s)).

(** [start()]: [init()], then the first [animate()]. *)
Definition start (env : Env) (rnd : nat -> R) (bins : list byte) (s : Scene) : js Scene :=
  Ok (frame bins (init env rnd s)).

(** Result of the DOMContentLoaded handler. *)
Inductive outcome :=
| Running (canvas_attached : bool) (s : Scene)
| LoggedFailure (e : string).

(** [try { const scene = new GalaxyScene(); scene.start(); }
     catch (error) { console.error(...) }] *)
Definition main (env : Env) (cp0 : ColorParams) (rnd : nat -> R) (bins : list byte) : outcome :=
  match (p <- construct env cp0 ;; s <- start env rnd bins (snd p) ;; Ok (fst p, s)) with
  | Ok (att, s) => Running att s
  | Throw e => LoggedFailure e
  end.

(** ** Arm buckets *)

(** The arm a point index is assigned to: the [i % armCount] of [armAngle]. *)
Definition arm (gp : GalaxyParams) (i : nat) : nat := i mod armCount gp.

(** The indices [i] in [0, particleCount) assigned to arm [j]. *)
Definition arm_bucket (gp : GalaxyParams) (j : nat) : list nat :=
  filter (fun i => Nat.eqb (arm gp i) j) (indices gp).

(** ** Lemmas on the generator *)

Lemma flat_map3_length {A} (f : A -> list R) (l : list A) :
  (forall x, List.length (f x) = 3%nat) ->
  List.length (flat_map f l) = (3 * List.length l)%nat.
Proof.
  intros Hf; induction l as [|x l IH]; simpl; [reflexivity|].
  rewrite length_app, Hf, IH; lia.
Qed.

Lemma flat_map3_nth {A} (f : A -> list R) (l : list A) (dx : A) (k c : nat) :
  (forall x, List.length (f x) = 3%nat) -> (k < List.length l)%nat -> (c < 3)%nat ->
  nth (3 * k + c) (flat_map f l) 0 = nth c (f (nth k l dx)) 0.
Proof.
  intros Hf; revert k; induction l as [|x l IH]; intros k Hk Hc; simpl in Hk; [lia|].
  change (flat_map f (x :: l)) with (f x ++ flat_map f l).
  destruct k as [|k].
  - rewrite app_nth1 by (rewrite Hf; lia); reflexivity.
  - rewrite app_nth2 by (rewrite Hf; lia).
    rewrite Hf.
    replace (3 * S k + c - 3)%nat with (3 * k + c)%nat by lia.
    apply IH; lia.
Qed.

Lemma indices_length (gp : GalaxyParams) : List.length (indices gp) = particleCount gp.
Proof. unfold indices; apply length_seq. Qed.

Lemma indices_nth (gp : GalaxyParams) (i : nat) :
  (i < particleCount gp)%nat -> nth i (indices gp) 0%nat = i.
Proof. intros H; unfold indices; rewrite seq_nth by exact H; reflexivity. Qed.

Lemma sizes_nth (gp : GalaxyParams) (rnd : nat -> R) (i : nat) :
  (i < particleCount gp)%nat -> nth i (sizes gp rnd) 0 = point_size gp rnd i.
Proof.
  intros H; unfold sizes.
  rewrite nth_indep with (d' := point_size gp rnd 0%nat)
    by (rewrite length_map, indices_length; exact H).
  rewrite map_nth, indices_nth by exact H; reflexivity.
Qed.

Lemma colors_nth (gp : GalaxyParams) (cp : ColorParams) (rnd : nat -> R) (i : nat) :
  (i < particleCount gp)%nat ->
  nth (3 * i) (colors_arr gp cp rnd) 0 = r (baseColor gp cp rnd i) /\
  nth (3 * i + 1) (colors_arr gp cp rnd) 0 = g (baseColor gp cp rnd i) /\
  nth (3 * i + 2) (colors_arr gp cp rnd) 0 = b (baseColor gp cp rnd i).
Proof.
  intros H; unfold colors_arr.
  assert (Hl : (i < List.length (indices gp))%nat) by (rewrite indices_length; exact H).
  pose proof (fun c (Hc : (c < 3)%nat) =>
    flat_map3_nth (fun i => let c := baseColor gp cp rnd i in [r c; g c; b c])
      (indices gp) 0%nat i c (fun _ => eq_refl) Hl Hc) as K.
  rewrite indices_nth in K by exact H.
  repeat split.
  - rewrite <- (Nat.add_0_r (3 * i)); rewrite K by lia; reflexivity.
  - rewrite K by lia; reflexivity.
  - rewrite K by lia; reflexivity.
Qed.

Lemma distance_range (gp : GalaxyParams) (rnd : nat -> R) (i : nat) :
  0 < size gp -> 0 <= rnd (4 * i)%nat < 1 ->
  distanceFromCenter gp rnd i = rnd (4 * i)%nat /\ 0 <= distanceFromCenter gp rnd i < 1.
Proof.
  intros Hs Hr; unfold distanceFromCenter, radius.
  assert (E : rnd (4 * i)%nat * size gp / size gp = rnd (4 * i)%nat) by (field; lra).
  rewrite E; split; [reflexivity | exact Hr].
Qed.

Lemma point_size_ge_2 (gp : GalaxyParams) (rnd : nat -> R) (i : nat) :
  2 <= point_size gp rnd i.
Proof. unfold point_size; apply Rmax_l. Qed.

Lemma point_size_antitone (gp : GalaxyParams) (rnd : nat -> R) (i j : nat) :
  0 < size gp -> radius gp rnd i <= radius gp rnd j ->
  point_size gp rnd j <= point_size gp rnd i.
Proof.
  intros Hs Hij; unfold point_size, distanceFromCenter.
  assert (Hd : radius gp rnd i / size gp <= radius gp rnd j / size gp).
  { unfold Rdiv; apply Rmult_le_compat_r; [left; apply Rinv_0_lt_compat|]; assumption. }
  unfold Rmax; destruct (Rle_dec 2 _), (Rle_dec 2 _); lra.
Qed.

Lemma bucket_count (k n j : nat) :
  (0 < k)%nat -> (j < k)%nat ->
  List.length (filter (fun i => Nat.eqb (i mod k) j) (seq 0 n)) =
  (n / k + (if Nat.ltb j (n mod k) then 1 else 0))%nat.
Proof.
  intros Hk Hj; induction n as [|n IH].
  - rewrite Nat.Div0.div_0_l, Nat.Div0.mod_0_l; simpl.
    destruct (Nat.ltb_spec j 0); [lia | reflexivity].
  - rewrite seq_S, filter_app, length_app, IH; simpl.
    pose proof (Nat.div_mod_eq n k) as Hdm.
    pose proof (Nat.mod_upper_bound n k ltac:(lia)) as Hm.
    set (q := (n / k)%nat) in *; set (m := (n mod k)%nat) in *.
    destruct (Nat.eq_dec (S m) k) as [Hlast|Hlast].
    + assert (Eq : (q + 1)%nat = (S n / k)%nat)
        by (apply (Nat.div_unique _ _ _ 0); lia).
      assert (Em : 0%nat = (S n mod k)%nat)
        by (apply (Nat.mod_unique _ _ (q + 1) 0); lia).
      rewrite <- Eq, <- Em.
      destruct (Nat.ltb_spec j m), (Nat.eqb_spec m j), (Nat.ltb_spec j 0); simpl; lia.
    + assert (Eq : q = (S n / k)%nat)
        by (apply (Nat.div_unique _ _ _ (S m)); lia).
      assert (Em : S m = (S n mod k)%nat)
        by (apply (Nat.mod_unique _ _ q); lia).
      rewrite <- Eq, <- Em.
      destruct (Nat.ltb_spec j m), (Nat.eqb_spec m j), (Nat.ltb_spec j (S m)); simpl; lia.
Qed.

Lemma arm_bucket_length (gp : GalaxyParams) (j : nat) :
  (0 < armCount gp)%nat -> (j < armCount gp)%nat ->
  List.length (arm_bucket gp j) =
  (particleCount gp / armCount gp +
     (if Nat.ltb j (particleCount gp mod armCount gp) then 1 else 0))%nat.
Proof. intros Hk Hj; unfold arm_bucket, arm, indices; apply bucket_count; assumption. Qed.

(** ** Concrete inputs *)

Definition ex_colors : ColorParams :=
  mkColorParams (mkColor 1 0.5 0.25) (mkColor 0 0.5 1) (mkColor 1 0.25 0).
Definition ex_params : Params :=
  mkParams (mkGalaxyParams 5 0.3 1.5 2 1000 0.2 0.5 100 2.0 0.5) ex_colors default_animation.
Definition ex_rnd : nat -> R := fun k => INR (k mod 2) / 2.

(** ** Claims on the generator *)

(** C2: for parameters with [size > 0] and [particleCount > 0], the position
    and colour arrays hold [3 * particleCount] numbers (three per point) and
    the size array [particleCount]; every size is
    [max(2, (1 - distanceFromCenter) * 4)], at least 2, and sizes do not
    increase with the generation radius. *)
Theorem generate_sizes (p : Params) (rnd : nat -> R)
  (Hsize : 0 < size (galaxy p)) (Hcount : (0 < particleCount (galaxy p))%nat) :
  let geo := createGeometry p rnd in
  let n := particleCount (galaxy p) in
  List.length (geo_position geo) = (3 * n)%nat /\
  List.length (geo_color geo) = (3 * n)%nat /\
  List.length (geo_size geo) = n /\
  (forall i, (i < n)%nat ->
     nth i (geo_size geo) 0 = Rmax 2 ((1 - distanceFromCenter (galaxy p) rnd i) * 4) /\
     2 <= nth i (geo_size geo) 0) /\
  (forall i j, (i < n)%nat -> (j < n)%nat ->
     radius (galaxy p) rnd i <= radius (galaxy p) rnd j ->
     nth j (geo_size geo) 0 <= nth i (geo_size geo) 0).
Proof.
  intros geo n; subst geo n; unfold createGeometry; simpl.
  split; [unfold positions; rewrite flat_map3_length, indices_length by reflexivity; reflexivity|].
  split; [unfold colors_arr; rewrite flat_map3_length, indices_length by reflexivity; reflexivity|].
  split; [unfold sizes; rewrite length_map; apply indices_length|].
  split.
  - intros i Hi; rewrite sizes_nth by exact Hi.
    split; [reflexivity | apply point_size_ge_2].
  - intros i j Hi Hj Hr; rewrite !sizes_nth by assumption.
    apply point_size_antitone; assumption.
Qed.

Lemma generate_sizes_witness :
  (0 < size (galaxy ex_params) /\ (0 < particleCount (galaxy ex_params))%nat) /\
  List.length (geo_size (createGeometry ex_params ex_rnd)) = 2%nat.
Proof.
  split; [split; simpl; [lra | lia]|].
  destruct (generate_sizes ex_params ex_rnd ltac:(simpl; lra) ltac:(simpl; lia))
    as (_ & _ & H & _).
  exact H.
Defined.

(** C3: with [size > 0], [colorShift] in [0,1] and [Math.random] values in
    [0,1), every generated point has [distanceFromCenter] in [0,1), an
    interpolation parameter [distanceFromCenter * colorShift] in [0,1), and
    its three stored colour channels are
    [core.c + (arms.c - core.c) * (distanceFromCenter * colorShift)]. *)
Theorem generate_colors (p : Params) (rnd : nat -> R)
  (Hsize : 0 < size (galaxy p)) (Hshift : 0 <= colorShift (galaxy p) <= 1)
  (Hrnd : forall k, 0 <= rnd k < 1) :
  forall i, (i < particleCount (galaxy p))%nat ->
    let d := distanceFromCenter (galaxy p) rnd i in
    let t := d * colorShift (galaxy p) in
    let core := c_core (colors p) in
    let arms := c_arms (colors p) in
    let cols := geo_color (createGeometry p rnd) in
    (0 <= d < 1) /\ (0 <= t < 1) /\
    nth (3 * i) cols 0 = r core + (r arms - r core) * t /\
    nth (3 * i + 1) cols 0 = g core + (g arms - g core) * t /\
    nth (3 * i + 2) cols 0 = b core + (b arms - b core) * t.
Proof.
  intros i Hi; cbv zeta.
  destruct (distance_range (galaxy p) rnd i Hsize (Hrnd _)) as [_ Hd].
  destruct (colors_nth (galaxy p) (colors p) rnd i Hi) as (E1 & E2 & E3).
  unfold createGeometry; cbn [geo_color].
  rewrite E1, E2, E3.
  split; [exact Hd|].
  split; [split; [apply Rmult_le_pos; lra|] |].
  - destruct Hshift as [H0 H1]; destruct Hd as [Hd0 Hd1].
    apply Rle_lt_trans with (distanceFromCenter (galaxy p) rnd i * 1); [|lra].
    apply Rmult_le_compat_l; lra.
  - repeat split; reflexivity.
Qed.

Lemma generate_colors_witness :
  (0 < size (galaxy ex_params) /\ 0 <= colorShift (galaxy ex_params) <= 1 /\
   (forall k, 0 <= ex_rnd k < 1)) /\
  0 <= distanceFromCenter (galaxy ex_params) ex_rnd 1 < 1.
Proof.
  assert (Hr : forall k, 0 <= ex_rnd k < 1).
  { intros k; unfold ex_rnd.
    pose proof (Nat.mod_upper_bound k 2 ltac:(lia)) as Hm.
    assert (Hm' : (k mod 2 <= 1)%nat) by lia.
    apply le_INR in Hm'; pose proof (pos_INR (k mod 2)); change (INR 1) with 1 in Hm'; lra. }
  split; [split; [simpl; lra | split; [simpl; lra | exact Hr]]|].
  destruct (generate_colors ex_params ex_rnd ltac:(simpl; lra) ltac:(simpl; lra) Hr 1%nat
              ltac:(simpl; lia)) as (H & _).
  exact H.
Defined.

(** C4: with [armCount >= 2], point [i] goes to arm [i mod armCount], whose
    base angle is [(i mod armCount) * (2 * PI / armCount)]; any two arm
    buckets differ in size by at most one, and with [armCount = 5] and
    [particleCount = 100000] each of the 5 buckets holds exactly 20000
    points. *)
Theorem arm_assignment (gp : GalaxyParams) (Hk : (2 <= armCount gp)%nat) :
  (forall i, (arm gp i < armCount gp)%nat /\
             armAngle gp i = INR (arm gp i) * (2 * PI / INR (armCount gp))) /\
  (forall j1 j2, (j1 < armCount gp)%nat -> (j2 < armCount gp)%nat ->
     (List.length (arm_bucket gp j1) <= List.length (arm_bucket gp j2) + 1)%nat) /\
  (armCount gp = 5%nat -> particleCount gp = N.to_nat 100000 ->
     forall j, (j < 5)%nat -> List.length (arm_bucket gp j) = N.to_nat 20000).
Proof.
  split; [|split].
  - intros i; split; [apply Nat.mod_upper_bound; lia | reflexivity].
  - intros j1 j2 H1 H2.
    rewrite !arm_bucket_length by lia.
    destruct (Nat.ltb _ _), (Nat.ltb _ _); lia.
  - intros Ha Hn j Hj.
    rewrite arm_bucket_length by lia.
    rewrite Ha, Hn.
    change 5%nat with (N.to_nat 5).
    rewrite <- N2Nat.inj_div, <- N2Nat.inj_mod.
    change (100000 mod 5)%N with 0%N; change (100000 / 5)%N with 20000%N.
    destruct (Nat.ltb_spec j (N.to_nat 0)); [simpl in *; lia | apply Nat.add_0_r].
Qed.

Lemma arm_assignment_witness :
  (2 <= armCount default_galaxy)%nat /\
  List.length (arm_bucket default_galaxy 3) = N.to_nat 20000.
Proof.
  split; [simpl; lia|].
  destruct (arm_assignment default_galaxy ltac:(simpl; lia)) as (_ & _ & H).
  apply H; [reflexivity | reflexivity | lia].
Defined.

(** ** Claim on the audio sampler *)

(** The sum of all bins. *)
Fixpoint sum_bins (data : list byte) : R :=
  match data with
  | [] => 0
  | x :: data' => byte_value x + sum_bins data'
  end.

Lemma fold_sum (data : list byte) (a : R) :
  fold_left (fun a x => a + byte_value x) data a = a + sum_bins data.
Proof.
  revert a; induction data as [|x data IH]; intros a; simpl; [ring|].
  rewrite IH; ring.
Qed.

Lemma byte_value_range (x : byte) : 0 <= byte_value x <= 255.
Proof.
  unfold byte_value; split.
  - apply IZR_le; apply N2Z.is_nonneg.
  - change 255 with (IZR (Z.of_N 255)); apply IZR_le.
    apply N2Z.inj_le; apply Strings.Byte.to_N_bounded.
Qed.

Lemma sum_bins_range (data : list byte) :
  0 <= sum_bins data <= INR (List.length data) * 255.
Proof.
  induction data as [|x data IH]; cbn [sum_bins List.length]; [simpl; lra|].
  pose proof (byte_value_range x).
  rewrite S_INR; lra.
Qed.

Lemma sum_bins_const (data : list byte) (c : byte) :
  (forall x, In x data -> x = c) -> sum_bins data = INR (List.length data) * byte_value c.
Proof.
  induction data as [|x data IH]; intros Hc; cbn [sum_bins List.length]; [simpl; ring|].
  rewrite (Hc x (or_introl eq_refl)), IH by (intros y Hy; apply Hc; right; exact Hy).
  rewrite S_INR; ring.
Qed.

(** C7: on a non-empty byte sequence the sampler returns
    [(sum of all bins) / (count * 255)], a value in [0,1], equal to 0 when
    every bin is 0 and to 1 when every bin is 255. *)
Theorem sample_spec (data : list byte) (Hlen : (0 < List.length data)%nat) :
  sample data = sum_bins data / (INR (List.length data) * 255) /\
  0 <= sample data <= 1 /\
  ((forall x, In x data -> x = Byte.x00) -> sample data = 0) /\
  ((forall x, In x data -> x = Byte.xff) -> sample data = 1).
Proof.
  assert (Hn : 0 < INR (List.length data)) by (apply lt_0_INR; exact Hlen).
  assert (E : sample data = sum_bins data / (INR (List.length data) * 255))
    by (unfold sample; rewrite fold_sum; f_equal; ring).
  pose proof (sum_bins_range data) as [H0 H1].
  split; [exact E|]; rewrite E.
  split; [|split].
  - split.
    + apply Rmult_le_pos; [exact H0|].
      left; apply Rinv_0_lt_compat; lra.
    + apply Rmult_le_reg_r with (INR (List.length data) * 255); [lra|].
      unfold Rdiv; rewrite Rmult_assoc, Rinv_l by lra; lra.
  - intros Hz; rewrite (sum_bins_const data Byte.x00 Hz).
    unfold byte_value; simpl; field; lra.
  - intros Hf; rewrite (sum_bins_const data Byte.xff Hf).
    unfold byte_value; simpl; field; lra.
Qed.

Lemma sample_spec_witness :
  (0 < List.length [Byte.xff; Byte.xff])%nat /\ sample [Byte.xff; Byte.xff] = 1.
Proof.
  split; [simpl; lia|].
  destruct (sample_spec [Byte.xff; Byte.xff] ltac:(simpl; lia)) as (_ & _ & _ & H).
  apply H; intros x [Hx|[Hx|[]]]; symmetry; exact Hx.
Defined.

(** ** The frame loop and the audio flag *)

(** The states a session goes through: the state [main] leaves, then any
    sequence of frames and GUI changes. *)
Inductive reachable : Scene -> Prop :=
| reach_start env cp0 rnd bins att s :
    main env cp0 rnd bins = Running att s -> reachable s
| reach_step e s : reachable s -> reachable (step e s).

Lemma update_core_particles (s : Scene) : particles (update_core s) = particles s.
Proof. unfold update_core; destruct (core s); reflexivity. Qed.

Lemma update_core_flag (s : Scene) : isAudioConnected (update_core s) = isAudioConnected s.
Proof. unfold update_core; destruct (core s); reflexivity. Qed.

Lemma update_particles_flag (bins : list byte) (s : Scene) :
  isAudioConnected (update_particles bins s) = isAudioConnected s.
Proof.
  unfold update_particles; destruct (particles s); [|reflexivity].
  destruct (isAudioConnected s) eqn:E, (analyser s); simpl; rewrite ?E; reflexivity.
Qed.

Lemma with_uniforms_flag (s : Scene) f : isAudioConnected (with_uniforms s f) = isAudioConnected s.
Proof. unfold with_uniforms; destruct (particles s); reflexivity. Qed.

Lemma step_flag (e : event) (s : Scene) : isAudioConnected (step e s) = isAudioConnected s.
Proof.
  destruct e; simpl; try unfold frame;
    rewrite ?update_core_flag, ?update_particles_flag, ?with_uniforms_flag; reflexivity.
Qed.

Lemma run_flag (tr : list event) (s : Scene) : isAudioConnected (run tr s) = isAudioConnected s.
Proof.
  revert s; induction tr as [|e tr IH]; intros s; [reflexivity|].
  simpl; rewrite IH; apply step_flag.
Qed.

Lemma with_uniforms_audio (s : Scene) f :
  (forall u, u_audioIntensity (f u) = u_audioIntensity u) ->
  audio_uniform (with_uniforms s f) = audio_uniform s.
Proof.
  intros Hf; unfold with_uniforms, audio_uniform; destruct (particles s) eqn:E; simpl;
    [apply Hf | rewrite E; reflexivity].
Qed.

Lemma frame_audio_off (bins : list byte) (s : Scene) :
  isAudioConnected s = false -> audio_uniform (frame bins s) = audio_uniform s.
Proof.
  intros Hf; unfold frame, audio_uniform; rewrite update_core_particles.
  unfold update_particles.
  change (particles (set_time s (time s + 0.016))) with (particles s).
  change (isAudioConnected (set_time s (time s + 0.016))) with (isAudioConnected s).
  rewrite Hf; destruct (particles s) eqn:E; simpl; rewrite ?E; reflexivity.
Qed.

Lemma step_audio_off (e : event) (s : Scene) :
  isAudioConnected s = false -> audio_uniform s = 0 -> audio_uniform (step e s) = 0.
Proof.
  intros Hf Ha; destruct e; simpl;
    try (unfold createGalaxy, audio_uniform; reflexivity);
    try (rewrite with_uniforms_audio by reflexivity; exact Ha).
  rewrite frame_audio_off by exact Hf; exact Ha.
Qed.

Lemma run_audio_off (tr : list event) (s : Scene) :
  isAudioConnected s = false -> audio_uniform s = 0 -> audio_uniform (run tr s) = 0.
Proof.
  revert s; induction tr as [|e tr IH]; intros s Hf Ha; [exact Ha|].
  simpl; apply IH; [rewrite step_flag; exact Hf | apply step_audio_off; assumption].
Qed.

Lemma audio_uniform_some (s : Scene) (pt : Particles) :
  particles s = Some pt -> audio_uniform s = u_audioIntensity (pt_uniforms pt).
Proof. intros H; unfold audio_uniform; rewrite H; reflexivity. Qed.

Lemma vadd_zero (q n : Vec3) : vadd q (vscale 0 n) = q.
Proof. destruct q; unfold vadd, vscale; simpl; f_equal; ring. Qed.

(** With [audioIntensity = 0] the vertex shader only rotates and pulses. *)
Lemma vertex_audio_off (u : ParticleUniforms) (p : Vec3) (sz : R) :
  u_audioIntensity u = 0 ->
  vertex u p sz = (vscale (1 + shader_pulse u * 0.1) (rotateY (shader_angle u) p), sz).
Proof.
  intros Ha; unfold vertex, shader_displacement; rewrite Ha.
  rewrite Rmult_0_r, Rmult_0_l, vadd_zero.
  f_equal; ring.
Qed.

Lemma main_state (env : Env) (cp0 : ColorParams) (rnd : nat -> R) (bins : list byte) :
  exists att, main env cp0 rnd bins = Running att (frame bins (init env rnd (initial_scene cp0))).
Proof.
  unfold main, construct, appendCanvas, start; simpl.
  destruct (getElementById env "app"); eexists; reflexivity.
Qed.

Lemma start_state_audio_off (env : Env) (cp0 : ColorParams) (rnd : nat -> R) (bins : list byte) :
  let s := frame bins (init env rnd (initial_scene cp0)) in
  isAudioConnected s = false /\ audio_uniform s = 0.
Proof.
  intros s; subst s.
  assert (Hi : isAudioConnected (init env rnd (initial_scene cp0)) = false /\
               audio_uniform (init env rnd (initial_scene cp0)) = 0).
  { unfold init, setupAudio; destruct (audio_supported env); split; reflexivity. }
  destruct Hi as [Hf Ha]; split.
  - unfold frame; rewrite update_core_flag, update_particles_flag; exact Hf.
  - rewrite frame_audio_off by exact Hf; exact Ha.
Qed.

Lemma reachable_audio_off (s : Scene) :
  reachable s -> isAudioConnected s = false /\ audio_uniform s = 0.
Proof.
  induction 1 as [env cp0 rnd bins att s Hm | e s _ [Hf Ha]].
  - destruct (main_state env cp0 rnd bins) as [att' Hm'].
    rewrite Hm' in Hm; injection Hm as _ <-.
    apply start_state_audio_off.
  - split; [rewrite step_flag; exact Hf | apply step_audio_off; assumption].
Qed.

(** ** Claims on the audio path *)

(** C8: from a state with no audio source connected ([isAudioConnected]
    false) and [audioIntensity = 0], after any sequence of frames and GUI
    changes the [audioIntensity] uniform is still 0 and the displacement
    term of the vertex shader is 0 for every point. *)
Theorem no_audio_no_displacement (s : Scene) (tr : list event)
  (Hoff : isAudioConnected s = false) (H0 : audio_uniform s = 0) :
  audio_uniform (run tr s) = 0 /\
  forall pt, particles (run tr s) = Some pt ->
    forall p, shader_displacement (pt_uniforms pt) p = 0.
Proof.
  pose proof (run_audio_off tr s Hoff H0) as Ha.
  split; [exact Ha|].
  intros pt Hpt p; unfold shader_displacement.
  rewrite <- (audio_uniform_some _ _ Hpt), Ha; ring.
Qed.

Lemma no_audio_no_displacement_witness :
  (isAudioConnected (initial_scene ex_colors) = false /\
   audio_uniform (initial_scene ex_colors) = 0) /\
  audio_uniform (run [SetArmCount 3 ex_rnd; Frame [Byte.xff]] (initial_scene ex_colors)) = 0.
Proof.
  split; [split; reflexivity|].
  destruct (no_audio_no_displacement (initial_scene ex_colors)
              [SetArmCount 3 ex_rnd; Frame [Byte.xff]] eq_refl eq_refl) as [H _].
  exact H.
Defined.

(** C10: in every reachable state [isAudioConnected] is false (also when
    the audio context was created), the [audioIntensity] uniform is 0, and
    the vertex shader applies neither the audio displacement nor the
    audio size scaling. *)
Theorem audio_never_connected (s : Scene) (Hr : reachable s) :
  isAudioConnected s = false /\ audio_uniform s = 0 /\
  forall pt, particles s = Some pt ->
    forall p sz,
      vertex (pt_uniforms pt) p sz =
      (vscale (1 + shader_pulse (pt_uniforms pt) * 0.1)
              (rotateY (shader_angle (pt_uniforms pt)) p), sz).
Proof.
  destruct (reachable_audio_off s Hr) as [Hf Ha].
  split; [exact Hf|]; split; [exact Ha|].
  intros pt Hpt p sz; apply vertex_audio_off.
  rewrite <- (audio_uniform_some _ _ Hpt); exact Ha.
Qed.

Definition ex_env : Env := mkEnv ["app"%string] true.
Definition ex_start : Scene := frame [] (init ex_env ex_rnd (initial_scene ex_colors)).

Lemma audio_never_connected_witness :
  reachable (step (Frame [Byte.xff]) ex_start) /\
  isAudioConnected (step (Frame [Byte.xff]) ex_start) = false.
Proof.
  assert (Hr : reachable (step (Frame [Byte.xff]) ex_start)).
  { apply reach_step; apply (reach_start ex_env ex_colors ex_rnd [] true); reflexivity. }
  split; [exact Hr|].
  destruct (audio_never_connected _ Hr) as [H _]; exact H.
Defined.

(** ** Purity of the animator *)

(** The stored buffers of a state. *)
Definition geometry_of (s : Scene) : option Geometry := option_map pt_geometry (particles s).

(** The same state with other stored buffers. *)
Definition with_geometry (s : Scene) (geo : Geometry) : Scene :=
  match particles s with
  | Some pt => set_particles s (Some (mkParticles geo (pt_uniforms pt)))
  | None => s
  end.

Lemma frame_geometry (bins : list byte) (s : Scene) :
  geometry_of (frame bins s) = geometry_of s.
Proof.
  unfold frame, geometry_of; rewrite update_core_particles; unfold update_particles.
  change (particles (set_time s (time s + 0.016))) with (particles s).
  destruct (particles s) eqn:E; simpl; [|rewrite E; reflexivity].
  destruct (isAudioConnected s), (analyser s); reflexivity.
Qed.

Lemma frame_with_geometry (bins : list byte) (s : Scene) (geo : Geometry) :
  frame bins (with_geometry s geo) = with_geometry (frame bins s) geo.
Proof.
  destruct s as [prm [pt|] cr an da [|] t]; destruct an, cr; reflexivity.
Qed.

Lemma run_frames_geometry (bl : list (list byte)) (s : Scene) :
  geometry_of (run (map Frame bl) s) = geometry_of s.
Proof.
  revert s; induction bl as [|bins bl IH]; intros s; [reflexivity|].
  simpl; rewrite IH; apply frame_geometry.
Qed.

(** C5: running frames never changes the stored position, colour and size
    buffers; what is drawn after any number of frames is the vertex shader
    applied to the buffers stored before them, with the current uniforms
    (no earlier animated position is kept); and one frame computes the
    same state whatever the stored buffers are, the buffers being carried
    through untouched. *)
Theorem animator_pure (s : Scene) (bl : list (list byte)) :
  let s' := run (map Frame bl) s in
  geometry_of s' = geometry_of s /\
  render s' = match geometry_of s, particles s' with
              | Some geo, Some pt' => Some (render_buffers geo (pt_uniforms pt'))
              | _, _ => None
              end /\
  (forall bins geo, frame bins (with_geometry s geo) = with_geometry (frame bins s) geo).
Proof.
  cbv zeta.
  pose proof (run_frames_geometry bl s) as Hg.
  split; [exact Hg|]; split; [|exact (fun bins geo => frame_with_geometry bins s geo)].
  rewrite <- Hg; unfold render, geometry_of.
  destruct (particles (run (map Frame bl) s)); reflexivity.
Qed.

(** ** Rotation and pulse timing *)

(** A scene at elapsed time [t0] with the default parameters, points with
    buffers [geo] and uniforms as [createGalaxy] sets them, and the core. *)
Definition ex_scene_at (t0 : R) (geo : Geometry) : Scene :=
  mkScene (mkParams default_galaxy ex_colors default_animation)
    (Some (mkParticles geo (mkParticleUniforms 0 0 0.1 0.3 0.5)))
    (Some (mkCoreUniforms 0 2.0)) None [] false t0.

Lemma rotateY_radius (angle : R) (p : Vec3) :
  vx (rotateY angle p) * vx (rotateY angle p) + vz (rotateY angle p) * vz (rotateY angle p) =
  vx p * vx p + vz p * vz p.
Proof.
  unfold rotateY; simpl.
  pose proof (sin2_cos2 angle) as H; unfold Rsqr in H.
  transitivity ((vx p * vx p + vz p * vz p) * (sin angle * sin angle + cos angle * cos angle));
    [ring | rewrite H; ring].
Qed.

(** C1 (code): with [rotationSpeed = 0.1], the frame that brings the
    elapsed time to 10 sets the [time] uniform to [10 * 0.1], and the
    shader multiplies it by [rotationSpeed] again: every point is rotated
    rigidly (horizontal radius kept) by [0.1] radian, not [1.0]. *)
Theorem rotation_angle_at_10 (geo : Geometry) :
  let s := frame [] (ex_scene_at 9.984 geo) in
  time s = 10 /\
  option_map (fun pt => shader_angle (pt_uniforms pt)) (particles s) = Some 0.1 /\
  0.1 <> time s * rotationSpeed (animation (params s)) /\
  (forall p, vx (rotateY 0.1 p) * vx (rotateY 0.1 p) + vz (rotateY 0.1 p) * vz (rotateY 0.1 p) =
             vx p * vx p + vz p * vz p).
Proof.
  cbv zeta; unfold frame, update_particles, update_core; simpl.
  split; [lra|]; split; [f_equal; unfold shader_angle; simpl; lra|].
  split; [lra|].
  intros p; apply rotateY_radius.
Qed.

Lemma sin_PI_10_pos : 0 < sin (PI / 2 * 0.1 * 2).
Proof. apply sin_gt_0; pose proof PI_RGT_0; lra. Qed.

(** C6 (code): with [rotationSpeed = 0.1] and [pulseIntensity = 0.3], at
    elapsed time [PI / 2] the particle shader's pulse is
    [sin(PI / 2 * 0.1 * 2) * 0.3] (the [time] uniform is the scaled time),
    not [sin(PI / 2 * 2) * 0.3 = 0]; the core glow of the same frame uses
    [sin(PI / 2 * 2)]. *)
Theorem pulse_phase_at_half_pi (geo : Geometry) :
  let s := frame [] (ex_scene_at (PI / 2 - 0.016) geo) in
  time s = PI / 2 /\
  option_map (fun pt => shader_pulse (pt_uniforms pt)) (particles s) =
    Some (sin (PI / 2 * 0.1 * 2) * 0.3) /\
  sin (PI / 2 * 0.1 * 2) * 0.3 <> sin (time s * 2) * pulseIntensity (animation (params s)) /\
  option_map core_intensity (core s) = Some (2.0 * (1 + sin (time s * 2) * 0.3)).
Proof.
  cbv zeta; unfold frame, update_particles, update_core; simpl.
  assert (Ht : PI / 2 - 0.016 + 0.016 = PI / 2) by lra.
  rewrite Ht.
  split; [reflexivity|]; split; [reflexivity|]; split; [|reflexivity].
  replace (PI / 2 * 2) with PI by lra; rewrite sin_PI.
  pose proof sin_PI_10_pos; lra.
Qed.

(** ** Start-up without a host container *)

(** C9 (counterexample): on a page without an element [app], start-up
    does not fail. *)
Lemma missing_container_not_fatal :
  ~ (exists e, main (mkEnv [] true) ex_colors ex_rnd [] = LoggedFailure e).
Proof. intros [e H]; discriminate H. Qed.

(** C9 (amended): when [document.getElementById('app')] is [null], the
    optional chain skips attaching the canvas and start-up goes on: [main]
    ends running the initialised scene with its canvas detached, whether or
    not the audio context could be created. *)
Theorem missing_container_detached (env : Env) (cp0 : ColorParams) (rnd : nat -> R)
  (bins : list byte) (Hnone : getElementById env "app" = None) :
  main env cp0 rnd bins = Running false (frame bins (init env rnd (initial_scene cp0))).
Proof.
  unfold main, construct, appendCanvas, start; rewrite Hnone; reflexivity.
Qed.

Lemma missing_container_detached_witness :
  getElementById (mkEnv [] false) "app" = None /\
  main (mkEnv [] false) ex_colors ex_rnd [] =
    Running false (frame [] (init (mkEnv [] false) ex_rnd (initial_scene ex_colors))).
Proof.
  split; [reflexivity|].
  apply missing_container_detached; reflexivity.
Defined.

(** * Further code of the repository *)

(** ** [KeyboardState] (src/src/utils/KeyboardState.ts) *)

Module Keyboard.

(** [private keys: Set<string>], as its elements in insertion order. *)
Record KeyboardState := mkKeyboardState { keys : list string }.

Definition empty : KeyboardState := mkKeyboardState [].

(** [Set.prototype.has] *)
Definition has (s : list string) (k : string) : bool := existsb (String.eqb k) s.

(** [Set.prototype.add]: appends the value unless it is already there. *)
Definition set_add (s : list string) (k : string) : list string :=
  if has s k then s else s ++ [k].

(** [Set.prototype.delete] *)
Definition set_delete (s : list string) (k : string) : list string :=
  filter (fun x => negb (String.eqb k x)) s.

(** [isPressed(keyCode)] *)
Definition isPressed (kb : KeyboardState) (keyCode : string) : bool := has (keys kb) keyCode.

(** The two window listeners registered by the constructor. *)
Inductive key_event := KeyDown (code : string) | KeyUp (code : string).

Definition key_step (e : key_event) (kb : KeyboardState) : KeyboardState :=
  match e with
  | KeyDown c => mkKeyboardState (set_add (keys kb) c)
  | KeyUp c => mkKeyboardState (set_delete (keys kb) c)
  end.

Definition key_run (tr : list key_event) (kb : KeyboardState) : KeyboardState :=
  fold_left (fun kb e => key_step e kb) tr kb.

(** Whether [k] is down according to the last event on [k] in [tr],
    [before] when there is none. *)
Definition last_state (k : string) (tr : list key_event) (before : bool) : bool :=
  fold_left (fun acc e =>
    match e with
    | KeyDown c => if String.eqb c k then true else acc
    | KeyUp c => if String.eqb c k then false else acc
    end) tr before.

Lemma has_app (s t : list string) (k : string) : has (s ++ t) k = has s k || has t k.
Proof. unfold has; apply existsb_app. Qed.

Lemma has_add (s : list string) (c k : string) :
  has (set_add s c) k = if String.eqb c k then true else has s k.
Proof.
  unfold set_add; destruct (has s c) eqn:Hc.
  - destruct (String.eqb_spec c k) as [<-|_]; [exact Hc | reflexivity].
  - rewrite has_app; unfold has at 2; simpl.
    destruct (String.eqb_spec c k) as [<-|Hne].
    + rewrite String.eqb_refl; apply orb_true_r.
    + destruct (String.eqb_spec k c) as [->|_]; [congruence|].
      rewrite orb_false_r; reflexivity.
Qed.

Lemma has_delete (s : list string) (c k : string) :
  has (set_delete s c) k = if String.eqb c k then false else has s k.
Proof.
  unfold set_delete, has; induction s as [|x s IH]; simpl.
  - destruct (String.eqb c k); reflexivity.
  - destruct (String.eqb_spec c x) as [Hcx|Hcx]; simpl; rewrite IH;
      destruct (String.eqb_spec c k) as [Hck|Hck];
      destruct (String.eqb_spec k x) as [Hkx|Hkx]; simpl; try reflexivity; congruence.
Qed.

(** X1: after any sequence of key events, [isPressed(k)] is true exactly
    when the last event on code [k] was a keydown; events on other codes
    do not affect it, and with no event on [k] it keeps its earlier value
    (false from a fresh [KeyboardState]). *)
Theorem isPressed_last_event (tr : list key_event) (kb : KeyboardState) (k : string) :
  isPressed (key_run tr kb) k = last_state k tr (isPressed kb k).
Proof.
  revert kb; induction tr as [|e tr IH]; intros kb; [reflexivity|].
  simpl; rewrite IH; f_equal.
  destruct e as [c|c]; unfold isPressed; simpl; [apply has_add | apply has_delete].
Qed.

End Keyboard.

(** ** The particles' fragment shader *)

Definition clamp (x lo hi : R) : R := Rmin (Rmax x lo) hi.

(** GLSL [smoothstep(edge0, edge1, x)]. *)
Definition smoothstep (edge0 edge1 x : R) : R :=
  let t := clamp ((x - edge0) / (edge1 - edge0)) 0 1 in t * t * (3 - 2 * t).

(** [alpha = (1.0 - smoothstep(0.4, 0.5, dist)) * dustDensity], with
    [dist = length(gl_PointCoord - vec2(0.5))]. *)
Definition fragment_alpha (dustDensity : R) (dist : R) : R :=
  (1 - smoothstep 0.4 0.5 dist) * dustDensity.

Lemma clamp_range (x : R) : 0 <= clamp x 0 1 <= 1.
Proof. unfold clamp, Rmin, Rmax; repeat destruct Rle_dec; lra. Qed.

Lemma smoothstep_range (x : R) : 0 <= smoothstep 0.4 0.5 x <= 1.
Proof.
  unfold smoothstep; cbv zeta.
  pose proof (clamp_range ((x - 0.4) / (0.5 - 0.4))) as [H0 H1].
  set (t := clamp _ 0 1) in *.
  split; [nra|].
  assert (E : t * t * (3 - 2 * t) - 1 = - ((1 - t) * (1 - t) * (1 + 2 * t))) by ring.
  assert (P : 0 <= (1 - t) * (1 - t) * (1 + 2 * t))
    by (apply Rmult_le_pos; [apply Rmult_le_pos|]; lra).
  lra.
Qed.

Lemma step_div_10 (x : R) : (x - 0.4) / (0.5 - 0.4) = (x - 0.4) * 10.
Proof.
  unfold Rdiv; f_equal.
  replace (0.5 - 0.4) with (/ 10) by lra; apply Rinv_inv.
Qed.

(** X2: a particle sprite is a soft disc: for a non-negative dust density
    its alpha lies in [0, dustDensity], equals [dustDensity] up to
    distance 0.4 from the sprite centre and is 0 from distance 0.5 on. *)
Theorem fragment_alpha_disc (dustDensity dist : R) (Hd : 0 <= dustDensity) :
  0 <= fragment_alpha dustDensity dist <= dustDensity /\
  (dist <= 0.4 -> fragment_alpha dustDensity dist = dustDensity) /\
  (0.5 <= dist -> fragment_alpha dustDensity dist = 0).
Proof.
  pose proof (smoothstep_range dist) as [S0 S1].
  assert (P : 0 <= smoothstep 0.4 0.5 dist * dustDensity) by (apply Rmult_le_pos; lra).
  assert (Q : 0 <= (1 - smoothstep 0.4 0.5 dist) * dustDensity) by (apply Rmult_le_pos; lra).
  unfold fragment_alpha; split.
  { split; [exact Q|].
    replace ((1 - smoothstep 0.4 0.5 dist) * dustDensity)
      with (dustDensity - smoothstep 0.4 0.5 dist * dustDensity) by ring; lra. }
  split; intros Hx;
    unfold smoothstep, clamp, Rmin, Rmax; cbv zeta.
  - rewrite step_div_10.
    repeat destruct Rle_dec; lra.
  - rewrite step_div_10.
    repeat destruct Rle_dec; try lra.
    assert (Hd5 : dist = 0.5) by lra; subst dist; lra.
Qed.

Lemma fragment_alpha_disc_witness :
  0 <= 0.5 /\ fragment_alpha 0.5 0.3 = 0.5.
Proof.
  split; [lra|].
  destruct (fragment_alpha_disc 0.5 0.3 ltac:(lra)) as (_ & H & _).
  apply H; lra.
Defined.

(** ** Invariants of a galaxy session *)

Lemma update_particles_params (bins : list byte) (s : Scene) :
  params (update_particles bins s) = params s /\ core (update_particles bins s) = core s /\
  time (update_particles bins s) = time s.
Proof.
  unfold update_particles; destruct (particles s); [|auto].
  destruct (isAudioConnected s), (analyser s); auto.
Qed.

(** X3: a frame sets the core glow intensity to
    [coreIntensity * (1 + sin(time * 2) * pulseIntensity)], which for a
    non-negative [coreIntensity] and a [pulseIntensity] in [0,1] lies in
    [0, 2 * coreIntensity]. *)
Theorem core_intensity_range (bins : list byte) (s : Scene)
  (Hc : 0 <= coreIntensity (galaxy (params s)))
  (Hp : 0 <= pulseIntensity (animation (params s)) <= 1) :
  match core (frame bins s) with
  | Some c =>
      core_intensity c = coreIntensity (galaxy (params s)) *
        (1 + sin (time (frame bins s) * 2) * pulseIntensity (animation (params s))) /\
      0 <= core_intensity c <= 2 * coreIntensity (galaxy (params s))
  | None => core s = None
  end.
Proof.
  destruct (update_particles_params bins (set_time s (time s + 0.016))) as (Ep & Ec & _).
  unfold frame; set (s1 := update_particles bins (set_time s (time s + 0.016))) in *.
  unfold update_core; destruct (core s1) eqn:E1.
  2: { simpl in Ec, E1; rewrite E1; rewrite <- Ec; reflexivity. }
  simpl; rewrite Ep; simpl.
  split; [reflexivity|].
  pose proof (SIN_bound (time s1 * 2)) as Hs.
  set (k := sin (time s1 * 2)) in *.
  set (pi := pulseIntensity (animation (params s))) in *.
  set (ci := coreIntensity (galaxy (params s))) in *.
  assert (H1 : 0 <= 1 + k * pi <= 2) by nra.
  split; nra.
Qed.

Lemma core_intensity_range_witness :
  (0 <= coreIntensity (galaxy (params (ex_scene_at 0 (mkGeometry [] [] [])))) /\
   0 <= pulseIntensity (animation (params (ex_scene_at 0 (mkGeometry [] [] [])))) <= 1) /\
  match core (frame [] (ex_scene_at 0 (mkGeometry [] [] []))) with
  | Some c => 0 <= core_intensity c
  | None => False
  end.
Proof.
  split; [simpl; lra|].
  pose proof (core_intensity_range [] (ex_scene_at 0 (mkGeometry [] [] []))
                ltac:(simpl; lra) ltac:(simpl; lra)) as H.
  destruct (core (frame [] (ex_scene_at 0 (mkGeometry [] [] [])))) as [c|].
  - destruct H as [_ [H _]]; exact H.
  - discriminate H.
Defined.

(** The material uniforms that mirror a parameter. *)
Definition uniforms_in_sync (s : Scene) : Prop :=
  match particles s with
  | Some pt =>
      u_rotationSpeed (pt_uniforms pt) = rotationSpeed (animation (params s)) /\
      u_pulseIntensity (pt_uniforms pt) = pulseIntensity (animation (params s)) /\
      u_dustDensity (pt_uniforms pt) = dustDensity (galaxy (params s))
  | None => False
  end.

Lemma step_in_sync (e : event) (s : Scene) :
  uniforms_in_sync s -> uniforms_in_sync (step e s).
Proof.
  destruct s as [[gp cp ap] [[geo u]|] cr an da fl t]; [|intros []].
  unfold uniforms_in_sync; simpl; intros (H1 & H2 & H3).
  destruct e; simpl; auto.
  destruct fl, an, cr; simpl; auto.
Qed.

(** X4: in every reachable state the points exist and the material's
    [rotationSpeed], [pulseIntensity] and [dustDensity] uniforms equal the
    current parameters: every GUI change of these reaches the shader,
    also across regenerations. *)
Theorem reachable_uniforms_in_sync (s : Scene) (Hr : reachable s) : uniforms_in_sync s.
Proof.
  induction Hr as [env cp0 rnd bins att s Hm | e s _ IH].
  - destruct (main_state env cp0 rnd bins) as [att' Hm'].
    rewrite Hm' in Hm; injection Hm as _ <-.
    apply (step_in_sync (Frame bins)).
    unfold init, setupAudio, uniforms_in_sync;
      destruct (audio_supported env); simpl; auto.
  - apply step_in_sync; exact IH.
Qed.

Lemma reachable_uniforms_in_sync_witness :
  reachable ex_start /\ uniforms_in_sync ex_start.
Proof.
  assert (Hr : reachable ex_start)
    by (apply (reach_start ex_env ex_colors ex_rnd [] true); reflexivity).
  split; [exact Hr | exact (reachable_uniforms_in_sync ex_start Hr)].
Defined.

(** The [Math.random] values of the generation an event triggers. *)
Definition regenerates (e : event) : option (nat -> R) :=
  match e with
  | SetArmCount _ rnd | SetArmWidth _ rnd | SetSpiralFactor _ rnd | SetRandomness _ rnd => Some rnd
  | Frame _ | SetDustDensity _ | SetRotationSpeed _ | SetPulseIntensity _ => None
  end.

(** X5: the four structural GUI controls (arm count, arm width, spiral
    tightness, star spread) replace the buffers by a fresh generation from
    the updated parameters; frames and the dust, rotation-speed and pulse
    controls leave the stored buffers untouched. *)
Theorem step_buffers (e : event) (s : Scene) :
  geometry_of (step e s) =
  match regenerates e with
  | Some rnd => Some (createGeometry (params (step e s)) rnd)
  | None => geometry_of s
  end.
Proof.
  destruct s as [prm [[geo u]|] cr an da fl t]; destruct e; try reflexivity;
    simpl; try (destruct fl, an, cr; reflexivity); destruct cr; reflexivity.
Qed.

(** Number of frames in a sequence of events. *)
Definition frame_count (tr : list event) : nat :=
  List.length (filter (fun e => match e with Frame _ => true | _ => false end) tr).

(** X6: the elapsed time advances by 0.016 per frame and GUI changes do
    not touch it. *)
Theorem run_time (tr : list event) (s : Scene) :
  time (run tr s) = time s + 0.016 * INR (frame_count tr).
Proof.
  revert s; induction tr as [|e tr IH]; intros s; [simpl; ring|].
  simpl run; rewrite IH.
  assert (Hs : time (step e s) =
               time s + (match e with Frame _ => 0.016 | _ => 0 end)).
  { destruct s as [prm [[geo u]|] cr an da fl t]; destruct e; simpl; try ring;
      try (destruct fl, an, cr; simpl; ring); destruct cr; simpl; ring. }
  rewrite Hs; unfold frame_count; destruct e; simpl filter; simpl List.length;
    rewrite ?S_INR; ring.
Qed.

(** ** The audio branch of [animate] *)

Lemma fill_length (dst src : list byte) : List.length (fill dst src) = List.length dst.
Proof.
  revert src; induction dst as [|x dst IH]; intros [|y src]; simpl; auto.
Qed.

Lemma sample_range (data : list byte) :
  (0 < List.length data)%nat -> 0 <= sample data <= 1.
Proof.
  intros Hlen.
  assert (Hn : 0 < INR (List.length data)) by (apply lt_0_INR; exact Hlen).
  unfold sample; rewrite fold_sum, Rplus_0_l.
  pose proof (sum_bins_range data) as [H0 H1].
  split.
  - apply Rmult_le_pos; [exact H0|].
    left; apply Rinv_0_lt_compat; lra.
  - apply Rmult_le_reg_r with (INR (List.length data) * 255); [lra|].
    unfold Rdiv; rewrite Rmult_assoc, Rinv_l by lra; lra.
Qed.

(** X7: on the branch [this.isAudioConnected && this.analyser], a frame
    copies the bins into [dataArray] without changing its length and sets
    [audioIntensity] to [sample * audioReactivity], which lies in
    [0, audioReactivity] as long as [dataArray] is not empty (an empty
    array would give [0 / 0]). *)
Theorem audio_intensity_range (bins : list byte) (s : Scene)
  (Hf : isAudioConnected s = true) (Ha : analyser s <> None) (Hp : particles s <> None)
  (Hl : (0 < List.length (dataArray s))%nat)
  (Hr : 0 <= audioReactivity (animation (params s))) :
  List.length (dataArray (frame bins s)) = List.length (dataArray s) /\
  audio_uniform (frame bins s) = sample (dataArray (frame bins s)) * audioReactivity (animation (params s)) /\
  0 <= audio_uniform (frame bins s) <= audioReactivity (animation (params s)).
Proof.
  destruct s as [prm [pt|] cr [n|] da fl t]; simpl in *;
    try (exfalso; apply Hp; reflexivity); try (exfalso; apply Ha; reflexivity).
  subst fl.
  assert (E : dataArray (frame bins (mkScene prm (Some pt) cr (Some n) da true t)) = fill da bins
           /\ audio_uniform (frame bins (mkScene prm (Some pt) cr (Some n) da true t)) =
              sample (fill da bins) * audioReactivity (animation prm))
    by (destruct cr; split; reflexivity).
  destruct E as [Ed Eu]; rewrite Ed, Eu, fill_length.
  split; [reflexivity|]; split; [reflexivity|].
  pose proof (sample_range (fill da bins) ltac:(rewrite fill_length; exact Hl)) as [H0 H1].
  split; [apply Rmult_le_pos; assumption|].
  rewrite <- (Rmult_1_l (audioReactivity (animation prm))) at 2.
  apply Rmult_le_compat_r; assumption.
Qed.

(** A state on the audio branch: connected, with a 128-bin analyser. *)
Definition ex_audio_scene : Scene :=
  mkScene ex_params (Some (mkParticles (mkGeometry [] [] []) (mkParticleUniforms 0 0 0.1 0.3 0.5)))
    (Some (mkCoreUniforms 0 2.0)) (Some 128%nat) (repeat Byte.x00 128) true 0.

Lemma audio_intensity_range_witness :
  (isAudioConnected ex_audio_scene = true /\ analyser ex_audio_scene <> None /\
   particles ex_audio_scene <> None /\ (0 < List.length (dataArray ex_audio_scene))%nat /\
   0 <= audioReactivity (animation (params ex_audio_scene))) /\
  audio_uniform (frame [Byte.xff] ex_audio_scene) <= audioReactivity default_animation.
Proof.
  assert (H1 : isAudioConnected ex_audio_scene = true) by reflexivity.
  assert (H2 : analyser ex_audio_scene <> None) by discriminate.
  assert (H3 : particles ex_audio_scene <> None) by discriminate.
  assert (H4 : (0 < List.length (dataArray ex_audio_scene))%nat) by (simpl; lia).
  assert (H5 : 0 <= audioReactivity (animation (params ex_audio_scene))) by (simpl; lra).
  split; [repeat split; assumption|].
  destruct (audio_intensity_range [Byte.xff] ex_audio_scene H1 H2 H3 H4 H5) as (_ & _ & _ & H).
  exact H.
Defined.

Lemma step_audio_buffers (e : event) (s : Scene) :
  isAudioConnected s = false ->
  analyser (step e s) = analyser s /\ dataArray (step e s) = dataArray s.
Proof.
  intros Hf; destruct s as [prm [pt|] cr an da fl t]; simpl in Hf; subst fl;
    destruct e; destruct an, cr; split; reflexivity.
Qed.

(** X8: in every reachable state either no analyser exists and
    [dataArray] is empty (no audio context), or the analyser has 128 bins
    and [dataArray] is still the zero-filled array of 128 bytes created by
    [init]: the analyser is never read. *)
Theorem reachable_audio_buffer (s : Scene) (Hr : reachable s) :
  (analyser s = None /\ dataArray s = []) \/
  (analyser s = Some 128%nat /\ dataArray s = repeat Byte.x00 128).
Proof.
  induction Hr as [env cp0 rnd bins att s Hm | e s Hr IH].
  - destruct (main_state env cp0 rnd bins) as [att' Hm'].
    rewrite Hm' in Hm; injection Hm as _ <-.
    assert (Hf : isAudioConnected (init env rnd (initial_scene cp0)) = false)
      by (unfold init, setupAudio; destruct (audio_supported env); reflexivity).
    destruct (step_audio_buffers (Frame bins) _ Hf) as [Ea Ed]; simpl step in Ea, Ed.
    rewrite Ea, Ed; unfold init, setupAudio; destruct (audio_supported env);
      [right | left]; split; reflexivity.
  - destruct (reachable_audio_off s Hr) as [Hf _].
    destruct (step_audio_buffers e s Hf) as [Ea Ed]; rewrite Ea, Ed; exact IH.
Qed.

Lemma reachable_audio_buffer_witness :
  reachable ex_start /\ dataArray ex_start = repeat Byte.x00 128.
Proof.
  assert (Hr : reachable ex_start)
    by (apply (reach_start ex_env ex_colors ex_rnd [] true); reflexivity).
  split; [exact Hr|].
  assert (Ha : analyser ex_start = Some 128%nat) by reflexivity.
  destruct (reachable_audio_buffer ex_start Hr) as [[Hn _] | [_ Hd]];
    [rewrite Ha in Hn; discriminate Hn | exact Hd].
Defined.

(** ** The stored buffers against the parameters *)








(** ** Geometry of the generated points *)

(** X10: with at least one arm, every arm angle
    [(i % armCount) * (2 * PI / armCount)] lies in [0, 2 * PI). *)
Theorem armAngle_range (gp : GalaxyParams) (i : nat) (Hk : (1 <= armCount gp)%nat) :
  0 <= armAngle gp i < 2 * PI.
Proof.
  unfold armAngle.
  set (k := armCount gp) in *.
  pose proof (Nat.mod_upper_bound i k ltac:(lia)) as Hm.
  assert (Hk0 : 0 < INR k) by (apply lt_0_INR; lia).
  assert (Hmk : INR (i mod k) < INR k) by (apply lt_INR; exact Hm).
  assert (Hm0 : 0 <= INR (i mod k)) by apply pos_INR.
  assert (Hp : 0 < 2 * PI / INR k) by (unfold Rdiv; pose proof PI_RGT_0;
    apply Rmult_lt_0_compat; [lra | apply Rinv_0_lt_compat; exact Hk0]).
  assert (E : INR k * (2 * PI / INR k) = 2 * PI) by (field; lra).
  split; [apply Rmult_le_pos; lra|].
  apply Rlt_le_trans with (INR k * (2 * PI / INR k)); [|lra].
  apply Rmult_lt_compat_r; assumption.
Qed.

Lemma armAngle_range_witness :
  (1 <= armCount default_galaxy)%nat /\ armAngle default_galaxy 7 < 2 * PI.
Proof.
  split; [simpl; lia|].
  exact (proj2 (armAngle_range default_galaxy 7 ltac:(simpl; lia))).
Defined.

(** X11: with [Math.random] values in [0,1] and non-negative [size],
    [armWidth] and [randomness], a point's radius is in [0, size], its
    height is at most [radius / 20] in absolute value and each horizontal
    coordinate at most [radius * (1 + armWidth / 2 + randomness / 2)]. *)
Theorem point_box (gp : GalaxyParams) (rnd : nat -> R) (i : nat)
  (Hr : forall k, 0 <= rnd k <= 1) (Hs : 0 <= size gp)
  (Hw : 0 <= armWidth gp) (Hn : 0 <= randomness gp) :
  0 <= radius gp rnd i <= size gp /\
  Rabs (vx (point_position gp rnd i)) <=
    radius gp rnd i * (1 + armWidth gp / 2 + randomness gp / 2) /\
  Rabs (vy (point_position gp rnd i)) <= radius gp rnd i / 20 /\
  Rabs (vz (point_position gp rnd i)) <=
    radius gp rnd i * (1 + armWidth gp / 2 + randomness gp / 2).
Proof.
  pose proof (Hr (4 * i)%nat) as H0; pose proof (Hr (4 * i + 1)%nat) as H1.
  pose proof (Hr (4 * i + 2)%nat) as H2; pose proof (Hr (4 * i + 3)%nat) as H3.
  assert (HR : 0 <= radius gp rnd i <= size gp)
    by (unfold radius; split; [apply Rmult_le_pos; lra|];
        apply Rle_trans with (1 * size gp); [apply Rmult_le_compat_r; lra | lra]).
  set (Ra := radius gp rnd i) in *.
  assert (Ho : Rabs (Ra + armOffset gp rnd i) <= Ra * (1 + armWidth gp / 2)).
  { unfold armOffset; fold Ra.
    assert (P : 0 <= armWidth gp * Ra) by (apply Rmult_le_pos; lra).
    assert (P1 : 0 <= rnd (4 * i + 1)%nat * (armWidth gp * Ra)) by (apply Rmult_le_pos; lra).
    assert (P2 : 0 <= (1 - rnd (4 * i + 1)%nat) * (armWidth gp * Ra)) by (apply Rmult_le_pos; lra).
    apply Rabs_le; split; nra. }
  assert (Hq : Rabs (randomOffset gp rnd i) <= Ra * (randomness gp / 2)).
  { unfold randomOffset; fold Ra.
    assert (P : 0 <= randomness gp * Ra) by (apply Rmult_le_pos; lra).
    assert (P1 : 0 <= rnd (4 * i + 2)%nat * (randomness gp * Ra)) by (apply Rmult_le_pos; lra).
    assert (P2 : 0 <= (1 - rnd (4 * i + 2)%nat) * (randomness gp * Ra)) by (apply Rmult_le_pos; lra).
    apply Rabs_le; split; nra. }
  assert (Hcs : forall c, Rabs c <= 1 ->
            Rabs (c * (Ra + armOffset gp rnd i) + randomOffset gp rnd i) <=
            Ra * (1 + armWidth gp / 2 + randomness gp / 2)).
  { intros c Hc.
    eapply Rle_trans; [apply Rabs_triang|].
    rewrite Rabs_mult.
    assert (Rabs c * Rabs (Ra + armOffset gp rnd i) <= 1 * (Ra * (1 + armWidth gp / 2))).
    { apply Rmult_le_compat; [apply Rabs_pos | apply Rabs_pos | exact Hc | exact Ho]. }
    lra. }
  split; [exact HR|]; split; [|split].
  - apply Hcs; apply Rabs_le; apply COS_bound.
  - unfold point_position; cbn [vy]; fold Ra.
    assert (P1 : 0 <= rnd (4 * i + 3)%nat * Ra) by (apply Rmult_le_pos; lra).
    assert (P2 : 0 <= (1 - rnd (4 * i + 3)%nat) * Ra) by (apply Rmult_le_pos; lra).
    apply Rabs_le; split; nra.
  - apply Hcs; apply Rabs_le; apply SIN_bound.
Qed.

Lemma ex_rnd_range (k : nat) : 0 <= ex_rnd k <= 1.
Proof.
  unfold ex_rnd; pose proof (Nat.mod_upper_bound k 2 ltac:(lia)) as H.
  assert (H1 : INR (k mod 2) <= 1) by (change 1 with (INR 1); apply le_INR; lia).
  pose proof (pos_INR (k mod 2)); split; lra.
Qed.

Lemma point_box_witness :
  ((forall k, 0 <= ex_rnd k <= 1) /\ 0 <= size default_galaxy /\
   0 <= armWidth default_galaxy /\ 0 <= randomness default_galaxy) /\
  Rabs (vy (point_position default_galaxy ex_rnd 1)) <= radius default_galaxy ex_rnd 1 / 20.
Proof.
  assert (Hs : 0 <= size default_galaxy) by (simpl; lra).
  assert (Hw : 0 <= armWidth default_galaxy) by (simpl; lra).
  assert (Hn : 0 <= randomness default_galaxy) by (simpl; lra).
  split; [repeat split; try assumption; apply ex_rnd_range|].
  destruct (point_box default_galaxy ex_rnd 1 ex_rnd_range Hs Hw Hn) as (_ & _ & H & _).
  exact H.
Defined.

(** X12: with [armWidth = 0] and [randomness = 0], a point lies exactly
    on its arm's spiral: its horizontal coordinates are
    [radius * (cos, sin)(armAngle + spiralAngle)], at horizontal distance
    [radius] from the centre. *)
Theorem on_spiral (gp : GalaxyParams) (rnd : nat -> R) (i : nat)
  (Hw : armWidth gp = 0) (Hn : randomness gp = 0) :
  vx (point_position gp rnd i) = radius gp rnd i * cos (totalAngle gp rnd i) /\
  vz (point_position gp rnd i) = radius gp rnd i * sin (totalAngle gp rnd i) /\
  vx (point_position gp rnd i) * vx (point_position gp rnd i) +
  vz (point_position gp rnd i) * vz (point_position gp rnd i) =
  radius gp rnd i * radius gp rnd i.
Proof.
  assert (Ex : vx (point_position gp rnd i) = radius gp rnd i * cos (totalAngle gp rnd i))
    by (unfold point_position, armOffset, randomOffset; simpl; rewrite Hw, Hn; ring).
  assert (Ez : vz (point_position gp rnd i) = radius gp rnd i * sin (totalAngle gp rnd i))
    by (unfold point_position, armOffset, randomOffset; simpl; rewrite Hw, Hn; ring).
  split; [exact Ex|]; split; [exact Ez|].
  rewrite Ex, Ez.
  pose proof (sin2_cos2 (totalAngle gp rnd i)) as H; unfold Rsqr in H.
  transitivity (radius gp rnd i * radius gp rnd i *
    (sin (totalAngle gp rnd i) * sin (totalAngle gp rnd i) +
     cos (totalAngle gp rnd i) * cos (totalAngle gp rnd i))); [ring | rewrite H; ring].
Qed.

Definition thin_galaxy : GalaxyParams :=
  mkGalaxyParams 5 0 1.5 10 1000 0 0.5 100 2.0 0.5.

Lemma on_spiral_witness :
  (armWidth thin_galaxy = 0 /\ randomness thin_galaxy = 0) /\
  vx (point_position thin_galaxy ex_rnd 3) =
  radius thin_galaxy ex_rnd 3 * cos (totalAngle thin_galaxy ex_rnd 3).
Proof.
  split; [split; reflexivity|].
  exact (proj1 (on_spiral thin_galaxy ex_rnd 3 eq_refl eq_refl)).
Defined.

Lemma vertices_flat (f : nat -> Vec3) (g : nat -> R) (l : list nat) :
  vertices (flat_map (fun i => [vx (f i); vy (f i); vz (f i)]) l) (map g l) =
  map (fun i => (f i, g i)) l.
Proof.
  induction l as [|i l IH]; [reflexivity|].
  simpl; rewrite IH; destruct (f i); reflexivity.
Qed.

(** X13: the generator and the shader agree on the layout of the
    buffers: the renderer draws exactly one vertex per generated point, in
    index order, the vertex shader being applied to that point's position
    and size. *)
Theorem render_generated (p : Params) (rnd : nat -> R) (u : ParticleUniforms) :
  render_buffers (createGeometry p rnd) u =
  map (fun i => vertex u (point_position (galaxy p) rnd i) (point_size (galaxy p) rnd i))
    (indices (galaxy p)).
Proof.
  unfold render_buffers, createGeometry, positions, sizes; simpl; cbv zeta.
  rewrite (vertices_flat (point_position (galaxy p) rnd) (point_size (galaxy p) rnd)), map_map.
  reflexivity.
Qed.

(** ** The vertex shader without audio *)

Lemma vlength_scale (k : R) (p : Vec3) : vlength (vscale k p) = Rabs k * vlength p.
Proof.
  unfold vlength, vscale; simpl.
  replace (k * vx p * (k * vx p) + k * vy p * (k * vy p) + k * vz p * (k * vz p))
    with (Rsqr k * (vx p * vx p + vy p * vy p + vz p * vz p)) by (unfold Rsqr; ring).
  rewrite sqrt_mult_alt by apply Rle_0_sqr.
  rewrite sqrt_Rsqr_abs; reflexivity.
Qed.

Lemma vlength_rotateY (angle : R) (p : Vec3) : vlength (rotateY angle p) = vlength p.
Proof.
  unfold vlength; f_equal.
  pose proof (rotateY_radius angle p) as H.
  replace (vy (rotateY angle p)) with (vy p) by reflexivity; lra.
Qed.

(** X14: without audio ([audioIntensity = 0]) the shader keeps the size
    and scales the distance of each point to the centre by
    [1 + pulse * 0.1]: with [|pulseIntensity| <= 1] a point moves by at
    most 10% of its distance, inwards or outwards. *)
Theorem vertex_distance (u : ParticleUniforms) (p : Vec3) (sz : R)
  (Ha : u_audioIntensity u = 0) (Hp : Rabs (u_pulseIntensity u) <= 1) :
  snd (vertex u p sz) = sz /\
  vlength (fst (vertex u p sz)) = (1 + shader_pulse u * 0.1) * vlength p /\
  0.9 * vlength p <= vlength (fst (vertex u p sz)) <= 1.1 * vlength p.
Proof.
  rewrite (vertex_audio_off u p sz Ha); simpl.
  rewrite vlength_scale, vlength_rotateY.
  assert (Hk : -1 <= shader_pulse u <= 1).
  { enough (Hab : Rabs (shader_pulse u) <= 1).
    { pose proof (Rle_abs (shader_pulse u)).
      pose proof (Rle_abs (- shader_pulse u)); rewrite Rabs_Ropp in *; lra. }
    unfold shader_pulse.
    rewrite Rabs_mult.
    pose proof (Rabs_pos (u_pulseIntensity u)).
    assert (Rabs (sin (u_time u * 2)) <= 1) by (apply Rabs_le; apply SIN_bound).
    assert (Rabs (sin (u_time u * 2)) * Rabs (u_pulseIntensity u) <= 1 * 1)
      by (apply Rmult_le_compat; auto using Rabs_pos).
    lra. }
  rewrite Rabs_pos_eq by lra.
  pose proof (sqrt_pos (vx p * vx p + vy p * vy p + vz p * vz p)) as Hl; fold (vlength p) in Hl.
  split; [reflexivity|]; split; [reflexivity|].
  split; nra.
Qed.

Lemma vertex_distance_witness :
  (u_audioIntensity (mkParticleUniforms 1 0 0.1 0.3 0.5) = 0 /\
   Rabs (u_pulseIntensity (mkParticleUniforms 1 0 0.1 0.3 0.5)) <= 1) /\
  vlength (fst (vertex (mkParticleUniforms 1 0 0.1 0.3 0.5) (mkVec3 3 0 4) 2)) <=
  1.1 * vlength (mkVec3 3 0 4).
Proof.
  assert (Ha : u_audioIntensity (mkParticleUniforms 1 0 0.1 0.3 0.5) = 0) by reflexivity.
  assert (Hp : Rabs (u_pulseIntensity (mkParticleUniforms 1 0 0.1 0.3 0.5)) <= 1)
    by (simpl; rewrite Rabs_pos_eq by lra; lra).
  split; [split; assumption|].
  destruct (vertex_distance _ (mkVec3 3 0 4) 2 Ha Hp) as (_ & _ & _ & H).
  exact H.
Defined.

(** ** Colours of the generated points *)

Lemma lerp_between (a c t : R) : 0 <= t <= 1 -> Rmin a c <= a + (c - a) * t <= Rmax a c.
Proof.
  intros Ht; unfold Rmin, Rmax; destruct (Rle_dec a c); split; nra.
Qed.

(** X15: with [size > 0], [colorShift] in [0,1] and [Math.random] in
    [0,1), each channel of a point's colour lies between the core's and
    the arms' channel; a point drawn at radius 0 has the core colour. *)
Theorem baseColor_between (gp : GalaxyParams) (cp : ColorParams) (rnd : nat -> R) (i : nat)
  (Hs : 0 < size gp) (Hr : 0 <= rnd (4 * i)%nat < 1) (Hc : 0 <= colorShift gp <= 1) :
  Rmin (r (c_core cp)) (r (c_arms cp)) <= r (baseColor gp cp rnd i) <= Rmax (r (c_core cp)) (r (c_arms cp)) /\
  Rmin (g (c_core cp)) (g (c_arms cp)) <= g (baseColor gp cp rnd i) <= Rmax (g (c_core cp)) (g (c_arms cp)) /\
  Rmin (b (c_core cp)) (b (c_arms cp)) <= b (baseColor gp cp rnd i) <= Rmax (b (c_core cp)) (b (c_arms cp)) /\
  (rnd (4 * i)%nat = 0 -> baseColor gp cp rnd i = c_core cp).
Proof.
  destruct (distance_range gp rnd i Hs Hr) as [Ed Hd].
  assert (Ht : 0 <= distanceFromCenter gp rnd i * colorShift gp <= 1)
    by (split; [apply Rmult_le_pos; lra | nra]).
  unfold baseColor, lerpColors; cbn [r g b].
  split; [apply lerp_between; exact Ht|].
  split; [apply lerp_between; exact Ht|].
  split; [apply lerp_between; exact Ht|].
  intros H0; rewrite Ed, H0.
  destruct (c_core cp) as [cr cg cb]; simpl; f_equal; ring.
Qed.

Lemma baseColor_between_witness :
  (0 < size default_galaxy /\ 0 <= ex_rnd (4 * 1)%nat < 1 /\ 0 <= colorShift default_galaxy <= 1) /\
  baseColor default_galaxy ex_colors ex_rnd 1 = c_core ex_colors.
Proof.
  assert (H0 : ex_rnd (4 * 1)%nat = 0) by (unfold ex_rnd; simpl; lra).
  assert (Hs : 0 < size default_galaxy) by (simpl; lra).
  assert (Hr : 0 <= ex_rnd (4 * 1)%nat < 1) by (rewrite H0; lra).
  assert (Hc : 0 <= colorShift default_galaxy <= 1) by (simpl; lra).
  split; [repeat split; try apply Hr; try apply Hc; exact Hs|].
  destruct (baseColor_between default_galaxy ex_colors ex_rnd 1 Hs Hr Hc) as (_ & _ & _ & H).
  exact (H H0).
Defined.

(** ** The picking cube (src/src/scenes/examples/CubeScene.ts, class CubeScene) *)

Module CubeScene.

(** The state the two listeners touch: [this.mouse], the material's
    [emissive] colour and its [color], both as the integers [setHex]
    stores ([Color.setHex] first takes [Math.floor] of its argument). *)
Record CubeState := mkCubeState { mouse : R * R; emissive : Z; color : Z }.

(** After [init]: [new THREE.Vector2()] is [(0, 0)], [emissive: 0x000000],
    [color: 0x00ff00]. *)
Definition initial : CubeState := mkCubeState (0, 0) 0 65280.

(** The mouse position in normalized device coordinates. *)
Definition ndc (clientX clientY innerWidth innerHeight : R) : R * R :=
  (clientX / innerWidth * 2 - 1, - (clientY / innerHeight) * 2 + 1).

(** [raycaster.intersectObject(this.cube).length > 0] for the current
    camera is an input of each event, as a test on the mouse position. *)
Definition onMouseMove (clientX clientY innerWidth innerHeight : R) (hit : R * R -> bool)
  (s : CubeState) : CubeState :=
  let m := ndc clientX clientY innerWidth innerHeight in
  mkCubeState m (if hit m then 3355443%Z else 0%Z) (color s).

(** [Math.random()] of the click is [rand]. *)
Definition onClick (hit : R * R -> bool) (rand : R) (s : CubeState) : CubeState :=
  if hit (mouse s) then mkCubeState (mouse s) (emissive s) (Int_part (rand * 16777215))
  else s.

Inductive cube_event :=
| MouseMove (clientX clientY innerWidth innerHeight : R) (hit : R * R -> bool)
| Click (hit : R * R -> bool) (rand : R).

Definition cube_step (e : cube_event) (s : CubeState) : CubeState :=
  match e with
  | MouseMove cx cy w h hit => onMouseMove cx cy w h hit s
  | Click hit rand => onClick hit rand s
  end.

Definition cube_run (tr : list cube_event) (s : CubeState) : CubeState :=
  fold_left (fun s e => cube_step e s) tr s.

(** The mouse position of the last [mousemove] of [tr], [m0] if none. *)
Definition last_mouse (tr : list cube_event) (m0 : R * R) : R * R :=
  fold_left (fun m e =>
    match e with
    | MouseMove cx cy w h _ => ndc cx cy w h
    | Click _ _ => m
    end) tr m0.

(** The [Math.random()] values of the clicks of [tr]. *)
Definition click_rands (tr : list cube_event) : list R :=
  flat_map (fun e => match e with Click _ rand => [rand] | MouseMove _ _ _ _ _ => [] end) tr.

Lemma cube_run_mouse (tr : list cube_event) (s : CubeState) :
  mouse (cube_run tr s) = last_mouse tr (mouse s).
Proof.
  revert s; induction tr as [|e tr IH]; intros s; [reflexivity|].
  simpl; rewrite IH; f_equal.
  destruct e as [cx cy w h hit | hit rand]; simpl; [reflexivity|].
  unfold onClick; destruct (hit (mouse s)); reflexivity.
Qed.

Lemma Int_part_range (x : R) : 0 <= x < 16777215 -> (0 <= Int_part x <= 16777214)%Z.
Proof.
  intros Hx; destruct (base_Int_part x) as [H1 H2].
  split.
  - assert (H : -1 < IZR (Int_part x)) by lra.
    apply lt_IZR in H; lia.
  - assert (H : IZR (Int_part x) < IZR 16777215) by lra.
    apply lt_IZR in H; lia.
Qed.

(** X16: for a pointer inside the window, [onMouseMove] maps it into
    [-1, 1] on both axes, with the left edge at [x = -1] and the top edge
    at [y = 1] (the screen's y axis is flipped). *)
Theorem ndc_range (cx cy w h : R) (Hw : 0 < w) (Hh : 0 < h)
  (Hx : 0 <= cx <= w) (Hy : 0 <= cy <= h) :
  -1 <= fst (ndc cx cy w h) <= 1 /\ -1 <= snd (ndc cx cy w h) <= 1 /\
  (cx = 0 -> fst (ndc cx cy w h) = -1) /\ (cy = 0 -> snd (ndc cx cy w h) = 1).
Proof.
  unfold ndc; simpl.
  assert (Ex : 0 <= cx / w <= 1).
  { split; [apply Rmult_le_pos; [lra | left; apply Rinv_0_lt_compat; lra]|].
    apply Rmult_le_reg_r with w; [lra|].
    unfold Rdiv; rewrite Rmult_assoc, Rinv_l by lra; lra. }
  assert (Ey : 0 <= cy / h <= 1).
  { split; [apply Rmult_le_pos; [lra | left; apply Rinv_0_lt_compat; lra]|].
    apply Rmult_le_reg_r with h; [lra|].
    unfold Rdiv; rewrite Rmult_assoc, Rinv_l by lra; lra. }
  split; [lra|]; split; [lra|]; split.
  - intros ->; unfold Rdiv; rewrite Rmult_0_l; ring.
  - intros ->; unfold Rdiv; rewrite Rmult_0_l; ring.
Qed.

Lemma ndc_range_witness :
  (0 < 800 /\ 0 < 600 /\ 0 <= 0 <= 800 /\ 0 <= 0 <= 600) /\ snd (ndc 0 0 800 600) = 1.
Proof.
  split; [repeat split; lra|].
  destruct (ndc_range 0 0 800 600 ltac:(lra) ltac:(lra) ltac:(lra) ltac:(lra)) as (_ & _ & _ & H).
  exact (H eq_refl).
Defined.

(** X17: [onClick] does not recompute the mouse position: it tests the
    position of the last [mousemove] (the initial [(0, 0)], the centre of
    the view, if there was none); a click changes only the colour, and
    only on a hit. *)
Theorem click_uses_last_move (tr : list cube_event) (hit : R * R -> bool) (rand : R) :
  let s := cube_run tr initial in
  let s' := cube_step (Click hit rand) s in
  mouse s' = last_mouse tr (0, 0) /\ emissive s' = emissive s /\
  color s' = (if hit (last_mouse tr (0, 0)) then Int_part (rand * 16777215) else color s).
Proof.
  cbv zeta; simpl cube_step; unfold onClick.
  rewrite cube_run_mouse; simpl mouse.
  destruct (hit (last_mouse tr (0, 0))); simpl; auto.
  split; [apply cube_run_mouse | auto].
Qed.

(** X18: from the state after [init], whatever the pointer does, the
    emissive colour is [0x000000] or [0x333333], and the colour is the
    initial green [0x00ff00] or (with [Math.random()] in [0, 1)) an
    integer in [0, 0xfffffe]: pure white [0xffffff] is never drawn. *)
Theorem cube_invariants (tr : list cube_event)
  (Hr : Forall (fun rand => 0 <= rand < 1) (click_rands tr)) :
  (emissive (cube_run tr initial) = 0%Z \/ emissive (cube_run tr initial) = 3355443%Z) /\
  (color (cube_run tr initial) = 65280%Z \/ (0 <= color (cube_run tr initial) <= 16777214)%Z).
Proof.
  assert (Hi : (emissive initial = 0%Z \/ emissive initial = 3355443%Z) /\
               (color initial = 65280%Z \/ (0 <= color initial <= 16777214)%Z))
    by (simpl; split; left; reflexivity).
  revert Hi Hr; generalize initial as s.
  induction tr as [|e tr IH]; intros s Hi Hr; [exact Hi|].
  simpl; apply IH.
  - destruct e as [cx cy w h hit | hit rand]; simpl.
    + split; [destruct (hit _); auto | apply Hi].
    + unfold onClick; destruct (hit (mouse s)); [simpl|exact Hi].
      split; [apply Hi|right].
      inversion Hr as [|x l Hx _]; subst.
      apply Int_part_range; lra.
  - destruct e; simpl in Hr; [exact Hr|].
    inversion Hr; assumption.
Qed.

Definition ex_trace : list cube_event :=
  [MouseMove 400 300 800 600 (fun _ => true); Click (fun _ => true) 0.5].

Lemma cube_invariants_witness :
  Forall (fun rand => 0 <= rand < 1) (click_rands ex_trace) /\
  (color (cube_run ex_trace initial) = 65280%Z \/
   (0 <= color (cube_run ex_trace initial) <= 16777214)%Z).
Proof.
  assert (Hr : Forall (fun rand => 0 <= rand < 1) (click_rands ex_trace))
    by (simpl; constructor; [lra | constructor]).
  split; [exact Hr|].
  exact (proj2 (cube_invariants ex_trace Hr)).
Defined.

End CubeScene.

(** ** The spinning cube (src/src/scenes/BaseScene.ts, class CubeScene) *)

Module SpinningCube.

(** [this.cube.rotation]: its x and y angles; a new [Mesh] has [(0, 0)]. *)
Record Rotation := mkRotation { rot_x : R; rot_y : R }.

(** One [animate()]: [rotation.x += 0.01; rotation.y += 0.01]. *)
Definition animate (rt : Rotation) : Rotation :=
  mkRotation (rot_x rt + 0.01) (rot_y rt + 0.01).

Fixpoint frames (n : nat) (rt : Rotation) : Rotation :=
  match n with
  | O => rt
  | S n' => frames n' (animate rt)
  end.

(** X19: after [n] frames from a new mesh both angles are [0.01 * n]
    radians: the cube turns equally about x and y, a full turn taking
    about 629 frames. *)
Theorem spin_angle (n : nat) :
  rot_x (frames n (mkRotation 0 0)) = 0.01 * INR n /\
  rot_y (frames n (mkRotation 0 0)) = 0.01 * INR n.
Proof.
  assert (H : forall m x y, frames m (mkRotation x y) =
                            mkRotation (x + 0.01 * INR m) (y + 0.01 * INR m)).
  { induction m as [|m IH]; intros x y; simpl frames.
    - simpl INR; f_equal; ring.
    - unfold animate; simpl rot_x; simpl rot_y; rewrite IH, S_INR; f_equal; ring. }
  rewrite H; simpl; split; ring.
Qed.

End SpinningCube.
